(** * Selective undo/redo for drawing entities

    A shallow embedding of [src/drawing-action.ts] and [src/undo-service.ts].

    The two TypeScript classes work on shared, mutable JavaScript objects:
    the host's entities, the snapshots produced by [cloneState] and the
    [DrawingAction] objects themselves, which the service keeps by reference
    in its [actions] and [pending] arrays.  Each of the three kinds of object
    lives in a store of its own here (a list indexed by allocation order), a
    reference is an index into its store, and every method takes the store
    and returns the updated one.  JavaScript has no reference to nothing; a
    lookup through an index that is not allocated gives a default object
    here, and a statement that needs an index to be allocated says so. *)

From stdpp Require Import base option list strings gmap.
From Stdlib Require Import ZArith Lia.

Local Set Warnings "-register-all".

(** ** JavaScript data *)

(** The values a field of an entity can hold.  Numbers are integers; nested
    arrays and objects are kept by value, since no method of the two classes
    writes below the top level of an entity.  Functions, symbols, [NaN],
    the infinities and objects with a [toJSON] of their own (a [Date]) are
    not among them: what [JSON.stringify] does to those is outside this
    development. *)
Inductive value :=
  | VUndefined
  | VNull
  | VBool (b : bool)
  | VNum (n : Z)
  | VStr (s : string)
  | VArr (vs : list value)
  | VObj (fs : gmap string value).

(** An entity, or a snapshot of one: the [entityId] the service reads
    (typed [string] by [deleteRequested] and by the [ids] filters) and the
    other own properties. *)
Record Obj := mkObj {
  entityId : string;
  props : gmap string value
}.

#[global] Instance Obj_inhabited : Inhabited Obj := populate (mkObj "" ∅).

(** What [JSON.parse (JSON.stringify v)] gives back for a field value:
    [None] when the field is left out ([undefined]); inside an array
    [undefined] becomes [null]. *)
Fixpoint jsonValue (v : value) : option value :=
  match v with
  | VUndefined => None
  | VArr vs => Some (VArr (map (λ x, default VNull (jsonValue x)) vs))
  | VObj fs => Some (VObj (omap jsonValue fs))
  | _ => Some v
  end.

(** [JSON.parse (JSON.stringify e)] on an entity. *)
Definition jsonClone (e : Obj) : Obj :=
  mkObj (entityId e) (omap jsonValue (props e)).

(** [Object.assign target source]: every own property of [source] is written
    onto [target]; the properties [target] has beyond those stay. *)
Definition assign (target source : Obj) : Obj :=
  mkObj (entityId source) (props source ∪ props target).

(** Modelled from the spec: [undo-state-enum.ts] is not among the sources.
    The members are those the README lists, [pending = 0, restored, undone],
    which the specification calls pending, applied and reverted. *)
Module UndoStateEnum.
Inductive t := pending | restored | undone.
#[global] Instance eq_dec : EqDecision t.
Proof. solve_decision. Defined.
End UndoStateEnum.

(** Modelled from the spec: [undo-cud-op-enum.ts] is not among the sources.
    The members are those the README lists, [update = 0, create, delete]. *)
Module UndoCUDOpEnum.
Inductive t := update | create | delete.
#[global] Instance eq_dec : EqDecision t.
Proof. solve_decision. Defined.
End UndoCUDOpEnum.

(** ** drawing-action.ts *)

Module DrawingAction.

(** The fields of a [DrawingAction].  [entity] points into the entity
    store, [prevState] and [nextState] into the snapshot store; [None] is
    [undefined] ([nextState] before the first [store]). *)
Record t := mk {
  entity : nat;
  prevState : option nat;
  nextState : option nat;
  status : UndoStateEnum.t;
  cudOp : UndoCUDOpEnum.t
}.

#[global] Instance t_inhabited : Inhabited t :=
  populate (mk 0 None None UndoStateEnum.pending UndoCUDOpEnum.update).

(** The objects the two classes reach. *)
Record Heap := mkHeap {
  entities : list Obj;
  snapshots : list Obj;
  records : list t
}.

(** [cloneState e]: a fresh object holding the JSON copy of [e]. *)
Definition cloneState (e : nat) (h : Heap) : nat * Heap :=
  (length (snapshots h),
   mkHeap (entities h) (snapshots h ++ [jsonClone (entities h !!! e)]) (records h)).

(** [new DrawingAction(e, cudOp)]. *)
Definition new (e : nat) (op : UndoCUDOpEnum.t) (h : Heap) : nat * Heap :=
  let '(p, h1) := cloneState e h in
  (length (records h1),
   mkHeap (entities h1) (snapshots h1)
     (records h1 ++ [mk e (Some p) None UndoStateEnum.pending op])).

(** [this.store(e)]: the result is [this.prevState !== this.nextState], a
    comparison of references. *)
Definition store (this e : nat) (h : Heap) : bool * Heap :=
  let '(n, h1) := cloneState e h in
  let a := records h1 !!! this in
  let a' := mk (entity a) (prevState a) (Some n) UndoStateEnum.restored (cudOp a) in
  (negb (bool_decide (prevState a' = nextState a')),
   mkHeap (entities h1) (snapshots h1) (<[this := a']> (records h1))).

(** [this.switchState(status)].  [Object.assign] skips an [undefined]
    source. *)
Definition switchState (st : UndoStateEnum.t) (this : nat) (h : Heap) : Heap :=
  let a := records h !!! this in
  let tmp := prevState a in
  let es :=
    match prevState a with
    | Some p => <[entity a := assign (entities h !!! entity a) (snapshots h !!! p)]> (entities h)
    | None => entities h
    end in
  mkHeap es (snapshots h) (<[this := mk (entity a) (nextState a) tmp st (cudOp a)]> (records h)).

Definition undo (this : nat) (h : Heap) : Heap :=
  switchState UndoStateEnum.undone this h.

Definition redo (this : nat) (h : Heap) : Heap :=
  switchState UndoStateEnum.restored this h.

End DrawingAction.

(** ** undo-service.ts *)

(** A call the service makes to the host: [createRequested] with an entity
    (the reference of the entity itself), [deleteRequested] with an id. *)
Inductive Call :=
  | CreateRequested (e : nat)
  | DeleteRequested (id : string).

Module UndoService.

(** An [UndoService] together with the heap it works on.  The two
    callbacks are kept as "is it set" and every call made is appended to
    [calls]. *)
Record t := mk {
  heap : DrawingAction.Heap;
  actions : list nat;
  pending : list nat;
  maxActions : Z;
  createRequested : bool;
  deleteRequested : bool;
  calls : list Call
}.

Definition with_heap (h : DrawingAction.Heap) (s : t) : t :=
  mk h (actions s) (pending s) (maxActions s) (createRequested s) (deleteRequested s) (calls s).
Definition with_actions (l : list nat) (s : t) : t :=
  mk (heap s) l (pending s) (maxActions s) (createRequested s) (deleteRequested s) (calls s).
Definition with_pending (l : list nat) (s : t) : t :=
  mk (heap s) (actions s) l (maxActions s) (createRequested s) (deleteRequested s) (calls s).
Definition call (c : Call) (s : t) : t :=
  mk (heap s) (actions s) (pending s) (maxActions s) (createRequested s) (deleteRequested s)
     (calls s ++ [c]).

(** [new UndoService(maxActions)]. *)
Definition new (maxActions : Z) (h : DrawingAction.Heap) : t :=
  mk h [] [] maxActions false false [].

(** [x.entity.entityId] for the action [x]. *)
Definition idOf (h : DrawingAction.Heap) (x : nat) : string :=
  entityId (DrawingAction.entities h !!! DrawingAction.entity (DrawingAction.records h !!! x)).

Definition statusOf (h : DrawingAction.Heap) (x : nat) : UndoStateEnum.t :=
  DrawingAction.status (DrawingAction.records h !!! x).

Definition checkMax (s : t) : t :=
  if bool_decide (maxActions s < Z.of_nat (length (actions s)))%Z
  then with_actions (drop 1 (actions s)) s
  else s.

Definition storeAction (a : nat) (s : t) : t :=
  checkMax (with_actions (actions s ++ [a]) s).

(** The callback [start] hands to [es.forEach]. *)
Definition start_each (cudOp : UndoCUDOpEnum.t) (s : t) (e : nat) : t :=
  let '(newAction, h1) := DrawingAction.new e cudOp (heap s) in
  if bool_decide (cudOp ≠ UndoCUDOpEnum.update) then
    let '(_, h2) := DrawingAction.store newAction e h1 in
    storeAction newAction (with_heap h2 s)
  else
    with_pending (pending s ++ [newAction]) (with_heap h1 s).

Definition start (es : list nat) (cudOp : UndoCUDOpEnum.t) (s : t) : t :=
  foldl (start_each cudOp) s es.

(** The callback [store] hands to [es.forEach]; [List.find] is
    [Array.prototype.find]. *)
Definition store_each (s : t) (e : nat) : t :=
  match List.find (λ x, bool_decide (idOf (heap s) x
                           = entityId (DrawingAction.entities (heap s) !!! e)))
                  (pending s) with
  | Some a =>
      let '(changed, h1) := DrawingAction.store a e (heap s) in
      if changed then storeAction a (with_heap h1 s) else with_heap h1 s
  | None => s
  end.

Definition store (es : list nat) (s : t) : t :=
  with_pending [] (foldl store_each s es).

Definition abort (s : t) : t := with_pending [] s.

Definition clear (s : t) : t := with_actions [] (with_pending [] s).

(** [ids] is [None] when the argument is left out.  Both [undefined] and
    the empty array fail the test [ids && ids.length > 0]. *)
Definition able (st : UndoStateEnum.t) (ids : option (list string)) (s : t) : list nat :=
  match ids with
  | Some (i :: l) =>
      filter (λ x, idOf (heap s) x ∈ i :: l ∧ statusOf (heap s) x = st) (actions s)
  | _ => filter (λ x, statusOf (heap s) x = st) (actions s)
  end.

Definition redoable (ids : option (list string)) (s : t) : list nat :=
  able UndoStateEnum.undone ids s.

Definition undoable (ids : option (list string)) (s : t) : list nat :=
  able UndoStateEnum.restored ids s.

Definition undoLast (ids : option (list string)) (s : t) : t :=
  let undoable := undoable ids s in
  if bool_decide (length undoable = 0) then s else
  let last := undoable !!! (length undoable - 1) in
  let a := DrawingAction.records (heap s) !!! last in
  let s1 :=
    match DrawingAction.cudOp a with
    | UndoCUDOpEnum.create =>
        if deleteRequested s then call (DeleteRequested (idOf (heap s) last)) s else s
    | UndoCUDOpEnum.delete =>
        if createRequested s then call (CreateRequested (DrawingAction.entity a)) s else s
    | UndoCUDOpEnum.update => s
    end in
  with_heap (DrawingAction.undo last (heap s1)) s1.

Definition redoLast (ids : option (list string)) (s : t) : t :=
  let redoable := redoable ids s in
  if bool_decide (length redoable = 0) then s else
  let first := redoable !!! 0 in
  let a := DrawingAction.records (heap s) !!! first in
  let s1 :=
    match DrawingAction.cudOp a with
    | UndoCUDOpEnum.create =>
        if createRequested s then call (CreateRequested (DrawingAction.entity a)) s else s
    | UndoCUDOpEnum.delete =>
        if deleteRequested s then call (DeleteRequested (idOf (heap s) first)) s else s
    | UndoCUDOpEnum.update => s
    end in
  with_heap (DrawingAction.redo first (heap s1)) s1.

End UndoService.

(** ** The host

    What the editor does around the service: it creates entities, edits
    them in place between [start] and [store], sets the two callbacks and
    calls the public methods. *)

Inductive Op :=
  | Start (es : list nat) (cudOp : UndoCUDOpEnum.t)
  | Store (es : list nat)
  | Abort
  | Clear
  | UndoLast (ids : option (list string))
  | RedoLast (ids : option (list string))
  | HostAlloc (o : Obj)
  | HostEdit (e : nat) (o : Obj)
  | HostListen (onCreate onDelete : bool).

Definition hostAlloc (o : Obj) (h : DrawingAction.Heap) : DrawingAction.Heap :=
  DrawingAction.mkHeap (DrawingAction.entities h ++ [o])
    (DrawingAction.snapshots h) (DrawingAction.records h).

(** The fields of entity [e] after an edit are those of [o].  An edit is
    a change of the entity's own fields; a write inside a nested object
    that an [Object.assign] has left shared between the entity and a
    snapshot is not expressed. *)
Definition hostEdit (e : nat) (o : Obj) (h : DrawingAction.Heap) : DrawingAction.Heap :=
  DrawingAction.mkHeap (<[e := o]> (DrawingAction.entities h))
    (DrawingAction.snapshots h) (DrawingAction.records h).

Definition step (s : UndoService.t) (o : Op) : UndoService.t :=
  match o with
  | Start es cudOp => UndoService.start es cudOp s
  | Store es => UndoService.store es s
  | Abort => UndoService.abort s
  | Clear => UndoService.clear s
  | UndoLast ids => UndoService.undoLast ids s
  | RedoLast ids => UndoService.redoLast ids s
  | HostAlloc o => UndoService.with_heap (hostAlloc o (UndoService.heap s)) s
  | HostEdit e o => UndoService.with_heap (hostEdit e o (UndoService.heap s)) s
  | HostListen c d =>
      UndoService.mk (UndoService.heap s) (UndoService.actions s) (UndoService.pending s)
        (UndoService.maxActions s) c d (UndoService.calls s)
  end.

Definition run (ops : list Op) (s : UndoService.t) : UndoService.t :=
  foldl step s ops.

(** A heap holding the host's entities and nothing of the service yet. *)
Definition hostHeap (es : list Obj) : DrawingAction.Heap :=
  DrawingAction.mkHeap es [] [].

(** One edit of the editor: the entity is staged, edited in place, and
    committed. *)
Definition editCycle (c : nat * Obj) : list Op :=
  [Start [c.1] UndoCUDOpEnum.update; HostEdit c.1 c.2; Store [c.1]].

Definition editCycles (cs : list (nat * Obj)) : list Op :=
  flat_map editCycle cs.

(** ** The filtering rule, in the words of the specification

    A record is considered when it has the required status and, unless
    [ids] is left out or empty, its entity's id is one of [ids]. *)
Definition considered (st : UndoStateEnum.t) (ids : option (list string))
    (s : UndoService.t) (x : nat) : Prop :=
  UndoService.statusOf (UndoService.heap s) x = st ∧
  (default [] ids = [] ∨ UndoService.idOf (UndoService.heap s) x ∈ default [] ids).

#[global] Instance considered_dec st ids s x : Decision (considered st ids s x).
Proof. unfold considered. apply _. Defined.

(** The invariant of the service: the records of the log are allocated and
    not pending, the staged records are allocated. *)
Definition log_inv (s : UndoService.t) : Prop :=
  Forall (λ x, x < length (DrawingAction.records (UndoService.heap s)) ∧
               UndoService.statusOf (UndoService.heap s) x ≠ UndoStateEnum.pending)
         (UndoService.actions s) ∧
  Forall (λ x, x < length (DrawingAction.records (UndoService.heap s)))
         (UndoService.pending s).

(** [h'] has every record of [h], and none that had left the pending status
    is pending again. *)
Definition heap_ext (h h' : DrawingAction.Heap) : Prop :=
  length (DrawingAction.records h) ≤ length (DrawingAction.records h') ∧
  ∀ x, x < length (DrawingAction.records h) →
       UndoService.statusOf h x ≠ UndoStateEnum.pending →
       UndoService.statusOf h' x ≠ UndoStateEnum.pending.

(** Edits that keep an entity within what a snapshot can give back: the
    entity before and after the edit is a plain JSON record, and the edit
    neither adds nor removes a field. *)
Fixpoint tidy (ents : list Obj) (cs : list (nat * Obj)) : Prop :=
  match cs with
  | [] => True
  | c :: cs =>
      c.1 < length ents ∧
      jsonClone (ents !!! c.1) = ents !!! c.1 ∧
      jsonClone c.2 = c.2 ∧
      dom (props c.2) = dom (props (ents !!! c.1)) ∧
      tidy (<[c.1 := c.2]> ents) cs
  end.

(** ** Examples used below *)

(** An entity with a single numeric field. *)
Definition shape (id field : string) (n : Z) : Obj :=
  mkObj id {[ field := VNum n ]}.

(** * Properties *)

(** ** DrawingAction *)

Section drawing_action.
Import DrawingAction.

Lemma cloneState_fst e h : (cloneState e h).1 = length (snapshots h).
Proof. reflexivity. Qed.

Lemma store_entities this e h : entities (store this e h).2 = entities h.
Proof. reflexivity. Qed.

Lemma store_snapshots this e h :
  snapshots (store this e h).2 = snapshots h ++ [jsonClone (entities h !!! e)].
Proof. reflexivity. Qed.

Lemma store_records this e h :
  records (store this e h).2 =
  <[this := mk (entity (records h !!! this)) (prevState (records h !!! this))
               (Some (length (snapshots h))) UndoStateEnum.restored
               (cudOp (records h !!! this))]> (records h).
Proof. reflexivity. Qed.

(** The snapshot taken by [store] is a new object, so it is never the
    object [prevState] points to: [store] answers [true] whatever the
    entity holds. *)
Lemma store_true this e h p :
  prevState (records h !!! this) = Some p →
  p < length (snapshots h) →
  (store this e h).1 = true.
Proof.
  intros Hp Hlt. unfold store; simpl. rewrite Hp.
  rewrite bool_decide_eq_false_2; [done|].
  intros [= ->]. lia.
Qed.

Lemma store_true_undefined this e h :
  prevState (records h !!! this) = None → (store this e h).1 = true.
Proof. intros Hp. unfold store; simpl. by rewrite Hp. Qed.

Lemma switchState_snapshots st this h :
  snapshots (switchState st this h) = snapshots h.
Proof. reflexivity. Qed.

Lemma switchState_length_records st this h :
  length (records (switchState st this h)) = length (records h).
Proof. unfold switchState; simpl. by rewrite length_insert. Qed.

Lemma switchState_length_entities st this h :
  length (entities (switchState st this h)) = length (entities h).
Proof.
  unfold switchState; simpl. destruct (prevState _); [|done].
  by rewrite length_insert.
Qed.

Lemma switchState_record_ne st this h x :
  x ≠ this → records (switchState st this h) !!! x = records h !!! x.
Proof. intros Hne. unfold switchState; simpl. by rewrite list_lookup_total_insert_ne. Qed.

Lemma switchState_entity_ne st this h e :
  e ≠ entity (records h !!! this) →
  entities (switchState st this h) !!! e = entities h !!! e.
Proof.
  intros Hne. unfold switchState; simpl. destruct (prevState _); [|done].
  by rewrite list_lookup_total_insert_ne.
Qed.

Lemma switchState_status st this h x :
  status (records (switchState st this h) !!! x) =
  if decide (this = x ∧ this < length (records h)) then st
  else status (records h !!! x).
Proof.
  unfold switchState; simpl. rewrite list_lookup_total_insert.
  by destruct (decide _).
Qed.

Lemma new_eq e op h :
  new e op h =
  (length (records h),
   mkHeap (entities h) (snapshots h ++ [jsonClone (entities h !!! e)])
     (records h ++ [mk e (Some (length (snapshots h))) None UndoStateEnum.pending op])).
Proof. reflexivity. Qed.

(** [store] on the record allocated last. *)
Lemma store_last l a e h :
  records h = l ++ [a] →
  store (length l) e h =
  (negb (bool_decide (prevState a = Some (length (snapshots h)))),
   mkHeap (entities h) (snapshots h ++ [jsonClone (entities h !!! e)])
     (l ++ [mk (entity a) (prevState a) (Some (length (snapshots h)))
               UndoStateEnum.restored (cudOp a)])).
Proof.
  intros Hl. unfold store; simpl. rewrite Hl.
  rewrite list_lookup_total_middle by done.
  rewrite insert_app_r_alt, Nat.sub_diag by done. reflexivity.
Qed.

End drawing_action.

(** ** UndoService: the log and its bound *)

Section service_basics.
Import UndoService.

Lemma checkMax_heap s : heap (checkMax s) = heap s.
Proof. unfold checkMax. by case_bool_decide. Qed.

Lemma checkMax_pending s : pending (checkMax s) = pending s.
Proof. unfold checkMax. by case_bool_decide. Qed.

Lemma checkMax_maxActions s : maxActions (checkMax s) = maxActions s.
Proof. unfold checkMax. by case_bool_decide. Qed.

Lemma checkMax_calls s : calls (checkMax s) = calls s.
Proof. unfold checkMax. by case_bool_decide. Qed.

Lemma storeAction_heap a s : heap (storeAction a s) = heap s.
Proof. unfold storeAction. by rewrite checkMax_heap. Qed.

Lemma storeAction_pending a s : pending (storeAction a s) = pending s.
Proof. unfold storeAction. by rewrite checkMax_pending. Qed.

Lemma storeAction_maxActions a s : maxActions (storeAction a s) = maxActions s.
Proof. unfold storeAction. by rewrite checkMax_maxActions. Qed.

Lemma storeAction_calls a s : calls (storeAction a s) = calls s.
Proof. unfold storeAction. by rewrite checkMax_calls. Qed.

(** Every record of the log after an append was in it before, or is the
    appended one. *)
Lemma storeAction_elem_of a s x :
  x ∈ actions (storeAction a s) → x ∈ actions s ∨ x = a.
Proof.
  assert (Hsnoc : x ∈ actions s ++ [a] → x ∈ actions s ∨ x = a).
  { rewrite elem_of_app, list_elem_of_singleton. tauto. }
  unfold storeAction, checkMax; simpl. case_bool_decide; simpl; [|done].
  intros [i Hx]%list_elem_of_lookup. rewrite lookup_drop in Hx.
  by apply list_elem_of_lookup_2, Hsnoc in Hx.
Qed.

Lemma storeAction_last a s :
  (1 ≤ maxActions s)%Z → last (actions (storeAction a s)) = Some a.
Proof.
  intros Hmax. unfold storeAction, checkMax; simpl.
  case_bool_decide as Hlen; simpl; [|apply last_snoc].
  destruct (actions s) as [|x l]; simpl in *; [lia|].
  rewrite drop_0. apply last_snoc.
Qed.

Lemma last_filter_keep {A} (P : A → Prop) `{!∀ x, Decision (P x)} (l : list A) a :
  last l = Some a → P a → last (filter P l) = Some a.
Proof.
  intros [l' ->]%last_Some Ha.
  rewrite filter_app, filter_cons_True, filter_nil by done. apply last_snoc.
Qed.

(** [start] on one created or deleted entity: the record is allocated,
    completed by [DrawingAction.store] and appended to the log. *)
Lemma start_one_stored e op s :
  op ≠ UndoCUDOpEnum.update →
  start [e] op s =
  storeAction (length (DrawingAction.records (heap s)))
    (with_heap
       (DrawingAction.mkHeap (DrawingAction.entities (heap s))
          (DrawingAction.snapshots (heap s)
             ++ [jsonClone (DrawingAction.entities (heap s) !!! e)]
             ++ [jsonClone (DrawingAction.entities (heap s) !!! e)])
          (DrawingAction.records (heap s)
             ++ [DrawingAction.mk e (Some (length (DrawingAction.snapshots (heap s))))
                   (Some (S (length (DrawingAction.snapshots (heap s)))))
                   UndoStateEnum.restored op])) s).
Proof.
  intros Hop. unfold start. cbn [foldl]. unfold start_each.
  rewrite new_eq. cbv beta iota zeta.
  rewrite bool_decide_eq_true_2 by done.
  erewrite store_last by reflexivity. simpl.
  rewrite length_app; simpl. rewrite Nat.add_1_r, <- app_assoc. reflexivity.
Qed.

(** [store] appends the staged record exactly when [DrawingAction.store]
    answered [true]. *)
Lemma store_each_actions s e a :
  List.find (λ x, bool_decide (idOf (heap s) x
                     = entityId (DrawingAction.entities (heap s) !!! e)))
            (pending s) = Some a →
  actions (store_each s e) =
  if (DrawingAction.store a e (heap s)).1
  then actions (storeAction a s) else actions s.
Proof.
  intros Hfind. unfold store_each. rewrite Hfind.
  destruct (DrawingAction.store a e (heap s)) as [[] h1]; simpl; [|done].
  unfold storeAction, checkMax; simpl. by case_bool_decide.
Qed.

End service_basics.

(** ** The filter shared by undo and redo *)

Section filtering.
Import UndoService.

Lemma able_considered st ids s :
  able st ids s = filter (considered st ids s) (actions s).
Proof.
  unfold able, considered. destruct ids as [[|i l]|]; simpl.
  - apply list_filter_iff. intros x. tauto.
  - apply list_filter_iff. intros x. split.
    + intros [? ?]. auto.
    + intros [? [?|?]]; [done|auto].
  - apply list_filter_iff. intros x. tauto.
Qed.

Lemma undoLast_last ids s :
  undoLast ids s =
  match last (undoable ids s) with
  | None => s
  | Some r =>
      let a := DrawingAction.records (heap s) !!! r in
      let s1 :=
        match DrawingAction.cudOp a with
        | UndoCUDOpEnum.create =>
            if deleteRequested s then call (DeleteRequested (idOf (heap s) r)) s else s
        | UndoCUDOpEnum.delete =>
            if createRequested s then call (CreateRequested (DrawingAction.entity a)) s else s
        | UndoCUDOpEnum.update => s
        end in
      with_heap (DrawingAction.undo r (heap s1)) s1
  end.
Proof.
  unfold undoLast. destruct (undoable ids s) as [|x l] eqn:Hl using rev_ind.
  - done.
  - clear IHl. rewrite last_snoc, length_app; simpl.
    rewrite bool_decide_eq_false_2 by lia.
    replace (length l + 1 - 1) with (length l) by lia.
    rewrite (list_lookup_total_correct _ _ x); [done|].
    by rewrite list_lookup_middle.
Qed.

Lemma redoLast_head ids s :
  redoLast ids s =
  match head (redoable ids s) with
  | None => s
  | Some r =>
      let a := DrawingAction.records (heap s) !!! r in
      let s1 :=
        match DrawingAction.cudOp a with
        | UndoCUDOpEnum.create =>
            if createRequested s then call (CreateRequested (DrawingAction.entity a)) s else s
        | UndoCUDOpEnum.delete =>
            if deleteRequested s then call (DeleteRequested (idOf (heap s) r)) s else s
        | UndoCUDOpEnum.update => s
        end in
      with_heap (DrawingAction.redo r (heap s1)) s1
  end.
Proof. unfold redoLast. by destruct (redoable ids s) as [|x l]. Qed.

Lemma undoLast_heap ids s r :
  last (undoable ids s) = Some r →
  heap (undoLast ids s) = DrawingAction.undo r (heap s).
Proof.
  intros Hr. rewrite undoLast_last, Hr; simpl.
  destruct (DrawingAction.cudOp _); [done| |]; by destruct (_ s).
Qed.

Lemma redoLast_heap ids s r :
  head (redoable ids s) = Some r →
  heap (redoLast ids s) = DrawingAction.redo r (heap s).
Proof.
  intros Hr. rewrite redoLast_head, Hr; simpl.
  destruct (DrawingAction.cudOp _); [done| |]; by destruct (_ s).
Qed.

Lemma undoLast_actions ids s : actions (undoLast ids s) = actions s.
Proof.
  rewrite undoLast_last. destruct (last _); [simpl|done].
  destruct (DrawingAction.cudOp _); [done| |]; by destruct (_ s).
Qed.

Lemma redoLast_actions ids s : actions (redoLast ids s) = actions s.
Proof.
  rewrite redoLast_head. destruct (head _); [simpl|done].
  destruct (DrawingAction.cudOp _); [done| |]; by destruct (_ s).
Qed.

Lemma undoLast_pending ids s : pending (undoLast ids s) = pending s.
Proof.
  rewrite undoLast_last. destruct (last _); [simpl|done].
  destruct (DrawingAction.cudOp _); [done| |]; by destruct (_ s).
Qed.

Lemma redoLast_pending ids s : pending (redoLast ids s) = pending s.
Proof.
  rewrite redoLast_head. destruct (head _); [simpl|done].
  destruct (DrawingAction.cudOp _); [done| |]; by destruct (_ s).
Qed.

Lemma undoLast_maxActions ids s : maxActions (undoLast ids s) = maxActions s.
Proof.
  rewrite undoLast_last. destruct (last _); [simpl|done].
  destruct (DrawingAction.cudOp _); [done| |]; by destruct (_ s).
Qed.

Lemma redoLast_maxActions ids s : maxActions (redoLast ids s) = maxActions s.
Proof.
  rewrite redoLast_head. destruct (head _); [simpl|done].
  destruct (DrawingAction.cudOp _); [done| |]; by destruct (_ s).
Qed.

End filtering.

(** ** The bound on the log *)

Section bound.
Import UndoService.

Lemma run_app ops1 ops2 s : run (ops1 ++ ops2) s = run ops2 (run ops1 s).
Proof. apply foldl_app. Qed.

Lemma editCycle_run e o s :
  pending s = [] →
  run (editCycle (e, o)) s =
  mk (DrawingAction.mkHeap (<[e := o]> (DrawingAction.entities (heap s)))
        (DrawingAction.snapshots (heap s)
           ++ [jsonClone (DrawingAction.entities (heap s) !!! e)]
           ++ [jsonClone (<[e := o]> (DrawingAction.entities (heap s)) !!! e)])
        (DrawingAction.records (heap s)
           ++ [DrawingAction.mk e (Some (length (DrawingAction.snapshots (heap s))))
                 (Some (S (length (DrawingAction.snapshots (heap s)))))
                 UndoStateEnum.restored UndoCUDOpEnum.update]))
     (actions (storeAction (length (DrawingAction.records (heap s))) s))
     [] (maxActions s) (createRequested s) (deleteRequested s) (calls s).
Proof.
  destruct s as [[ents snaps recs] acts pend mx cr dr cl]; simpl. intros ->.
  unfold run, editCycle, start, store, start_each, store_each. simpl.
  unfold idOf, hostEdit; simpl.
  rewrite !list_lookup_total_middle by done. simpl.
  rewrite bool_decide_eq_true_2 by done.
  rewrite !list_lookup_total_middle by done. simpl.
  rewrite length_app; simpl.
  rewrite bool_decide_eq_false_2 by (intros [= ?]; lia). simpl.
  rewrite insert_app_r_alt, Nat.sub_diag by done. simpl.
  unfold storeAction, checkMax, with_actions, with_heap, with_pending; simpl.
  rewrite Nat.add_1_r, <- app_assoc.
  by case_bool_decide.
Qed.

(** The log after an append, when it was within its bound before. *)
Lemma storeAction_bounded a s (n : nat) :
  maxActions s = Z.of_nat n →
  length (actions s) ≤ n →
  actions (storeAction a s) =
    drop (length (actions s) + 1 - n) (actions s ++ [a]).
Proof.
  intros Hmax Hlen. unfold storeAction, checkMax; simpl.
  rewrite Hmax, length_app; simpl. case_bool_decide as Hlt; simpl.
  - replace (length (actions s) + 1 - n) with 1 by lia. done.
  - replace (length (actions s) + 1 - n) with 0 by lia. done.
Qed.

(** The state after [k] edits in a new service with room for [n]
    records. *)
Lemma editCycles_run (n : nat) cs h :
  let s := run (editCycles cs) (new (Z.of_nat n) h) in
  actions s = drop (length cs - n) (seq (length (DrawingAction.records h)) (length cs)) ∧
  pending s = [] ∧
  maxActions s = Z.of_nat n ∧
  length (DrawingAction.snapshots (heap s))
    = length (DrawingAction.snapshots h) + 2 * length cs ∧
  DrawingAction.records (heap s) =
    DrawingAction.records h ++
    imap (λ i c, DrawingAction.mk c.1
                   (Some (length (DrawingAction.snapshots h) + 2 * i))
                   (Some (S (length (DrawingAction.snapshots h) + 2 * i)))
                   UndoStateEnum.restored UndoCUDOpEnum.update) cs.
Proof.
  induction cs as [|[e o] cs IH] using rev_ind; simpl.
  { rewrite List.app_nil_r. repeat split; lia. }
  destruct IH as (Hact & Hpend & Hmax & Hsnap & Hrec).
  unfold editCycles in *. rewrite flat_map_app, run_app. cbn [flat_map].
  rewrite List.app_nil_r, editCycle_run by done. simpl.
  rewrite Hmax, Hsnap, Hrec. rewrite !length_app, length_imap; simpl.
  split; [|split; [done|split; [done|split; [lia|]]]].
  - rewrite (storeAction_bounded _ _ n) by (try done; rewrite Hact, length_drop, length_seq; lia).
    rewrite Hact, length_drop, length_seq, seq_app; simpl.
    rewrite <- (drop_app_le _ [_] (length cs - n)) by (rewrite length_seq; lia).
    rewrite drop_drop. f_equal. lia.
  - rewrite imap_app; simpl. rewrite <- app_assoc. do 4 f_equal; f_equal; lia.
Qed.


Lemma foldl_inv {A B} (P : A → Prop) (f : A → B → A) (l : list B) (a : A) :
  (∀ a b, P a → P (f a b)) → P a → P (foldl f a l).
Proof. intros Hf. revert a. induction l as [|b l IH]; simpl; auto. Qed.

Lemma start_each_maxActions op s e : maxActions (start_each op s e) = maxActions s.
Proof.
  unfold start_each. rewrite new_eq. cbv beta iota zeta.
  case_bool_decide; [|done].
  destruct (DrawingAction.store _ _ _). by rewrite storeAction_maxActions.
Qed.

Lemma store_each_maxActions s e : maxActions (store_each s e) = maxActions s.
Proof.
  unfold store_each. destruct (List.find _ _); [|done].
  destruct (DrawingAction.store _ _ _) as [[] ?]; [|done].
  by rewrite storeAction_maxActions.
Qed.

Lemma step_maxActions s o : maxActions (step s o) = maxActions s.
Proof.
  destruct o; simpl; try done.
  - unfold start. apply (foldl_inv (λ s', maxActions s' = maxActions s)); [|done].
    intros s' e <-. apply start_each_maxActions.
  - unfold store; simpl.
    apply (foldl_inv (λ s', maxActions s' = maxActions s)); [|done].
    intros s' e <-. apply store_each_maxActions.
  - apply undoLast_maxActions.
  - apply redoLast_maxActions.
Qed.

Lemma storeAction_no_history a s :
  (maxActions s ≤ 0)%Z → actions s = [] → actions (storeAction a s) = [].
Proof.
  intros Hmax Hact. unfold storeAction, checkMax; simpl. rewrite Hact; simpl.
  by rewrite bool_decide_eq_true_2 by lia.
Qed.

Lemma step_no_history s o :
  (maxActions s ≤ 0)%Z → actions s = [] → actions (step s o) = [].
Proof.
  intros Hmax Hact. destruct o; simpl; try done.
  - unfold start.
    apply (foldl_inv (λ s', (maxActions s' ≤ 0)%Z ∧ actions s' = [])); [|done].
    intros s' e [Hm Ha]. split; [by rewrite start_each_maxActions|].
    unfold start_each. rewrite new_eq. cbv beta iota zeta.
    case_bool_decide; [|done].
    destruct (DrawingAction.store _ _ _). by apply storeAction_no_history.
  - unfold store; simpl.
    apply (foldl_inv (λ s', (maxActions s' ≤ 0)%Z ∧ actions s' = [])); [|done].
    intros s' e [Hm Ha]. split; [by rewrite store_each_maxActions|].
    unfold store_each. destruct (List.find _ _); [|done].
    destruct (DrawingAction.store _ _ _) as [[] ?]; [|done].
    by apply storeAction_no_history.
  - by rewrite undoLast_actions.
  - by rewrite redoLast_actions.
Qed.

Lemma run_no_history ops s :
  (maxActions s ≤ 0)%Z → actions s = [] → actions (run ops s) = [].
Proof.
  intros Hmax Hact. unfold run.
  apply (foldl_inv (λ s', (maxActions s' ≤ 0)%Z ∧ actions s' = [])); [|done].
  intros s' o [Hm Ha]. split; [by rewrite step_maxActions|by apply step_no_history].
Qed.

Lemma storeAction_length a s (n : nat) :
  maxActions s = Z.of_nat n →
  length (actions s) ≤ n →
  length (actions (storeAction a s)) ≤ n.
Proof.
  intros Hmax Hlen. rewrite (storeAction_bounded a s n) by done.
  rewrite length_drop, length_app; simpl. lia.
Qed.

(** The log of a service with room for [n] records never holds more. *)
Lemma step_bounded (n : nat) s o :
  maxActions s = Z.of_nat n →
  length (actions s) ≤ n →
  length (actions (step s o)) ≤ n.
Proof.
  intros Hmax Hlen. destruct o; simpl; try done.
  - unfold start.
    apply (foldl_inv (λ s', maxActions s' = Z.of_nat n ∧ length (actions s') ≤ n)); [|done].
    intros s' e [Hm Ha]. split; [by rewrite start_each_maxActions|].
    unfold start_each. rewrite new_eq. cbv beta iota zeta.
    case_bool_decide; [|done].
    destruct (DrawingAction.store _ _ _). by apply storeAction_length.
  - unfold store; simpl.
    apply (foldl_inv (λ s', maxActions s' = Z.of_nat n ∧ length (actions s') ≤ n)); [|done].
    intros s' e [Hm Ha]. split; [by rewrite store_each_maxActions|].
    unfold store_each. destruct (List.find _ _); [|done].
    destruct (DrawingAction.store _ _ _) as [[] ?]; [|done].
    by apply storeAction_length.
  - lia.
  - by rewrite undoLast_actions.
  - by rewrite redoLast_actions.
Qed.

Lemma run_bounded (n : nat) ops s :
  maxActions s = Z.of_nat n →
  length (actions s) ≤ n →
  length (actions (run ops s)) ≤ n.
Proof.
  intros Hmax Hlen. unfold run.
  apply (foldl_inv (λ s', maxActions s' = Z.of_nat n ∧ length (actions s') ≤ n)); [|done].
  intros s' o [Hm Ha]. split; [by rewrite step_maxActions|by apply step_bounded].
Qed.

End bound.

(** ** State swaps *)

Section swaps.
Import UndoService.

Lemma assign_roundtrip (N P : Obj) :
  dom (props P) ⊆ dom (props N) → assign (assign N P) N = N.
Proof.
  intros Hdom. destruct N as [idN mN], P as [idP mP]; unfold assign; simpl in *.
  f_equal. apply map_eq. intros k. rewrite !lookup_union.
  destruct (mN !! k) as [v|] eqn:HN; simpl.
  - by rewrite union_Some_l.
  - destruct (mP !! k) as [w|] eqn:HP; [|done].
    assert (Hk : k ∈ dom mN) by (apply Hdom, elem_of_dom; eauto).
    apply elem_of_dom in Hk as [? ?]. congruence.
Qed.

(** What [undo] leaves on the entity: the fields of [prevState] and, beside
    them, the fields the entity had beyond those. *)
Lemma switchState_entity st r h a p :
  DrawingAction.records h !! r = Some a →
  DrawingAction.prevState a = Some p →
  DrawingAction.entity a < length (DrawingAction.entities h) →
  DrawingAction.entities (DrawingAction.switchState st r h) !!! DrawingAction.entity a =
  assign (DrawingAction.entities h !!! DrawingAction.entity a) (DrawingAction.snapshots h !!! p).
Proof.
  intros Ha Hp He. unfold DrawingAction.switchState; simpl.
  rewrite (list_lookup_total_correct _ _ _ Ha), Hp.
  by rewrite list_lookup_total_insert_eq.
Qed.

Lemma switchState_cudOp st this h x :
  DrawingAction.cudOp (DrawingAction.records (DrawingAction.switchState st this h) !!! x) =
  DrawingAction.cudOp (DrawingAction.records h !!! x).
Proof.
  unfold DrawingAction.switchState; simpl. rewrite list_lookup_total_insert.
  destruct (decide _) as [[-> _]|]; done.
Qed.

Lemma undo_cudOp this h x :
  DrawingAction.cudOp (DrawingAction.records (DrawingAction.undo this h) !!! x) =
  DrawingAction.cudOp (DrawingAction.records h !!! x).
Proof. apply switchState_cudOp. Qed.

Lemma undo_redo_heap r h a p n :
  DrawingAction.records h !! r = Some a →
  DrawingAction.status a = UndoStateEnum.restored →
  DrawingAction.prevState a = Some p →
  DrawingAction.nextState a = Some n →
  DrawingAction.entities h !!! DrawingAction.entity a = DrawingAction.snapshots h !!! n →
  dom (props (DrawingAction.snapshots h !!! p)) ⊆ dom (props (DrawingAction.snapshots h !!! n)) →
  DrawingAction.redo r (DrawingAction.undo r h) = h.
Proof.
  intros Ha Hst Hp Hn He Hdom.
  assert (Hr : r < length (DrawingAction.records h)) by (by eapply lookup_lt_Some).
  destruct h as [ents snaps recs]; simpl in *.
  unfold DrawingAction.redo, DrawingAction.undo, DrawingAction.switchState; simpl.
  rewrite (list_lookup_total_correct _ _ _ Ha), Hp, Hn.
  rewrite list_lookup_total_insert_eq by done. simpl.
  rewrite !list_insert_insert_eq.
  destruct a as [e pa na sa op]; simpl in *; subst.
  rewrite (list_insert_id recs r) by done. f_equal.
  destruct (decide (e < length ents)) as [Hlt|Hge].
  - rewrite list_lookup_total_insert_eq by done.
    rewrite He, assign_roundtrip by done.
    apply list_insert_id.
    rewrite <- He. by apply list_lookup_lookup_total_lt.
  - by rewrite !list_insert_ge by lia.
Qed.

Lemma head_filter_first {A} (P : A → Prop) `{!∀ x, Decision (P x)} (l1 l2 : list A) r :
  Forall (λ x, P x → x = r) l1 → P r → head (filter P (l1 ++ r :: l2)) = Some r.
Proof.
  intros Hl1 Hr. induction Hl1 as [|x l1 Hx _ IH]; simpl.
  - by rewrite filter_cons_True.
  - destruct (decide (P x)) as [HP|HP].
    + rewrite filter_cons_True by done. simpl. f_equal. auto.
    + by rewrite filter_cons_False.
Qed.

Lemma assign_covered (target source : Obj) :
  dom (props target) ⊆ dom (props source) → assign target source = source.
Proof.
  intros Hdom. destruct target as [idT mT], source as [idS mS]; unfold assign; simpl in *.
  f_equal. apply map_eq. intros k. rewrite lookup_union.
  destruct (mS !! k) as [v|] eqn:HS; simpl; [by rewrite union_Some_l|].
  destruct (mT !! k) as [w|] eqn:HT; [|done].
  assert (Hk : k ∈ dom mS) by (apply Hdom, elem_of_dom; eauto).
  apply elem_of_dom in Hk as [? ?]. congruence.
Qed.

Lemma assign_lookup (target source : Obj) k v :
  props source !! k = Some v → props (assign target source) !! k = Some v.
Proof. intros Hk. unfold assign; simpl. by apply lookup_union_Some_l. Qed.

Lemma last_filter_only {A} (P : A → Prop) `{!∀ x, Decision (P x)} (l : list A) r :
  (∀ x, x ∈ l → P x → x = r) → r ∈ l → P r → last (filter P l) = Some r.
Proof.
  intros Honly Hr HP. destruct (last (filter P l)) as [x|] eqn:Hlast.
  - apply last_Some in Hlast as [l' Hl'].
    assert (Hx : x ∈ filter P l).
    { rewrite Hl'. apply elem_of_app. right. apply list_elem_of_here. }
    apply list_elem_of_filter in Hx as [? ?]. f_equal. auto.
  - apply last_None in Hlast.
    assert (Hin : r ∈ filter P l) by (by apply list_elem_of_filter).
    rewrite Hlast in Hin. by apply not_elem_of_nil in Hin.
Qed.

End swaps.

(** ** The invariant of the log *)

Section invariant.
Import UndoService.

Lemma heap_ext_refl h : heap_ext h h.
Proof. split; auto. Qed.

Lemma heap_ext_trans h1 h2 h3 : heap_ext h1 h2 → heap_ext h2 h3 → heap_ext h1 h3.
Proof.
  intros [Hl1 H1] [Hl2 H2]. split; [lia|].
  intros x Hx Hst. apply H2; [lia|]. by apply H1.
Qed.

Lemma heap_ext_records h h' :
  DrawingAction.records h' = DrawingAction.records h → heap_ext h h'.
Proof. intros Heq. unfold heap_ext, statusOf. rewrite Heq. auto. Qed.

Lemma heap_ext_new e op h : heap_ext h (DrawingAction.new e op h).2.
Proof.
  rewrite new_eq. split; simpl.
  - rewrite length_app. lia.
  - intros x Hx. unfold statusOf; simpl. by rewrite lookup_total_app_l.
Qed.

Lemma heap_ext_store this e h : heap_ext h (DrawingAction.store this e h).2.
Proof.
  split.
  - rewrite store_records, length_insert. lia.
  - intros x Hx. unfold statusOf. rewrite store_records.
    rewrite list_lookup_total_insert. destruct (decide _); [done|auto].
Qed.

Lemma store_status this e h :
  this < length (DrawingAction.records h) →
  statusOf (DrawingAction.store this e h).2 this = UndoStateEnum.restored.
Proof.
  intros Hlt. unfold statusOf. rewrite store_records.
  by rewrite list_lookup_total_insert_eq.
Qed.

Lemma heap_ext_switchState st this h :
  st ≠ UndoStateEnum.pending → heap_ext h (DrawingAction.switchState st this h).
Proof.
  intros Hst. split.
  - rewrite switchState_length_records. lia.
  - intros x Hx. unfold statusOf. rewrite switchState_status.
    destruct (decide _); auto.
Qed.

Lemma log_inv_heap s h' :
  log_inv s → heap_ext (heap s) h' → log_inv (with_heap h' s).
Proof.
  intros [Ha Hp] [Hlen Hext]. split; simpl.
  - eapply Forall_impl; [exact Ha|]. intros x [Hx Hst]. split; [lia|auto].
  - eapply Forall_impl; [exact Hp|]. intros x Hx. simpl in Hx. lia.
Qed.

Lemma log_inv_storeAction a s :
  log_inv s →
  a < length (DrawingAction.records (heap s)) →
  statusOf (heap s) a ≠ UndoStateEnum.pending →
  log_inv (storeAction a s).
Proof.
  intros [Ha Hp] Hlt Hst. split.
  - rewrite storeAction_heap. apply Forall_forall. intros x Hx.
    apply storeAction_elem_of in Hx as [Hx| ->]; [|done].
    by eapply Forall_forall in Ha.
  - by rewrite storeAction_heap, storeAction_pending.
Qed.

Lemma log_inv_start_each op s e : log_inv s → log_inv (start_each op s e).
Proof.
  intros Hinv. unfold start_each.
  pose proof (heap_ext_new e op (heap s)) as Hnew.
  rewrite new_eq in *. cbv beta iota zeta. simpl in Hnew.
  case_bool_decide.
  - set (r := length (DrawingAction.records (heap s))).
    match goal with |- context [DrawingAction.store r e ?h] => set (h1 := h) in * end.
    pose proof (heap_ext_store r e h1) as Hstore.
    assert (Hr : r < length (DrawingAction.records h1)).
    { unfold h1; simpl. rewrite length_app; simpl. lia. }
    pose proof (store_status r e h1 Hr) as Hst.
    destruct (DrawingAction.store r e h1) as [c h2]. cbn [snd] in *.
    apply log_inv_storeAction; cbn [heap with_heap].
    + apply log_inv_heap; [done|]. by eapply heap_ext_trans.
    + destruct Hstore as [Hlen _]. lia.
    + by rewrite Hst.
  - match type of Hnew with heap_ext _ ?h => set (h1 := h) in * end.
    destruct (log_inv_heap s h1 Hinv Hnew) as [Ha Hp]. split; [done|]; simpl in *.
    apply Forall_app. split; [done|]. apply Forall_singleton.
    rewrite length_app; simpl. lia.
Qed.

Lemma log_inv_store_each s e : log_inv s → log_inv (store_each s e).
Proof.
  intros Hinv. unfold store_each.
  destruct (List.find _ _) as [a|] eqn:Hfind; [|done].
  apply find_some in Hfind as [Hin _]. apply list_elem_of_In in Hin.
  assert (Ha : a < length (DrawingAction.records (heap s))).
  { destruct Hinv as [_ Hp]. by eapply Forall_forall in Hp. }
  pose proof (heap_ext_store a e (heap s)) as Hstore.
  pose proof (store_status a e (heap s) Ha) as Hst.
  destruct (DrawingAction.store a e (heap s)) as [c h1]. cbn [snd] in *.
  destruct c.
  - apply log_inv_storeAction; cbn [heap with_heap].
    + by apply log_inv_heap.
    + destruct Hstore as [Hlen _]. lia.
    + by rewrite Hst.
  - by apply log_inv_heap.
Qed.

Lemma log_inv_fields s s' :
  heap s' = heap s → actions s' = actions s → pending s' = pending s →
  log_inv s → log_inv s'.
Proof. unfold log_inv. by intros -> -> ->. Qed.

Lemma log_inv_step s o : log_inv s → log_inv (step s o).
Proof.
  intros Hinv. destruct o; simpl.
  - unfold start. apply (foldl_inv log_inv); [|done].
    intros. by apply log_inv_start_each.
  - unfold store.
    assert (Hfold : log_inv (foldl store_each s es)).
    { apply (foldl_inv log_inv); [|done]. intros. by apply log_inv_store_each. }
    destruct Hfold as [Ha _]. split; [done|]. simpl. constructor.
  - destruct Hinv as [Ha _]. split; [done|]. simpl. constructor.
  - split; simpl; constructor.
  - destruct (last (undoable ids s)) as [r|] eqn:Hlast.
    + apply (log_inv_fields (with_heap (DrawingAction.undo r (heap s)) s)).
      * by rewrite (undoLast_heap _ _ r).
      * by rewrite undoLast_actions.
      * by rewrite undoLast_pending.
      * apply log_inv_heap; [done|]. by apply heap_ext_switchState.
    + by rewrite undoLast_last, Hlast.
  - destruct (head (redoable ids s)) as [r|] eqn:Hhead.
    + apply (log_inv_fields (with_heap (DrawingAction.redo r (heap s)) s)).
      * by rewrite (redoLast_heap _ _ r).
      * by rewrite redoLast_actions.
      * by rewrite redoLast_pending.
      * apply log_inv_heap; [done|]. by apply heap_ext_switchState.
    + by rewrite redoLast_head, Hhead.
  - apply log_inv_heap; [done|]. by apply heap_ext_records.
  - apply log_inv_heap; [done|]. by apply heap_ext_records.
  - done.
Qed.

Lemma log_inv_run ops s : log_inv s → log_inv (run ops s).
Proof. intros Hinv. unfold run. apply (foldl_inv log_inv); [|done]. intros. by apply log_inv_step. Qed.

End invariant.

(** ** Claims *)

Section claims.
Import UndoService.

(** C1 does not hold of the code.  An entity is staged with [start] and
    committed with [store] without any edit in between.  The two snapshots
    of the record hold the same fields, yet [DrawingAction.store] answers
    [true] and the record is appended to [actions]: the comparison
    [prevState !== nextState] is one of references, and the two snapshots
    are always two objects. *)
Theorem C1_unchanged_commit_is_recorded :
  let e := shape "e" "x" 0 in
  let s0 := new 10 (hostHeap [e]) in
  let s1 := start [0] UndoCUDOpEnum.update s0 in
  let s2 := store [0] s1 in
  DrawingAction.entities (heap s2) = [e] ∧
  pending s1 = [0] ∧
  (DrawingAction.store 0 0 (heap s1)).1 = true ∧
  actions s0 = [] ∧
  actions s2 = [0] ∧
  DrawingAction.records (heap s2) =
    [DrawingAction.mk 0 (Some 0) (Some 1) UndoStateEnum.restored UndoCUDOpEnum.update] ∧
  DrawingAction.snapshots (heap s2) = [e; e].
Proof. vm_compute. repeat split; reflexivity. Qed.

(** C2, in the form that holds of the code.  Let [undoLast ()] select the
    update record [r], let no record before [r] in the log be undone, let
    the entity hold the fields of the record's later snapshot, and let every
    field of the prior snapshot also be a field of the later one.  Then
    [undoLast ()] leaves on the entity the prior snapshot written over the
    later one, [redoLast ()] right after it gives back the very state
    before the undo, entity included, and so does any number of such
    pairs. *)
Theorem C2_undo_redo_roundtrip s r a p n l1 l2 :
  last (undoable None s) = Some r →
  actions s = l1 ++ r :: l2 →
  Forall (λ x, statusOf (heap s) x ≠ UndoStateEnum.undone) l1 →
  DrawingAction.records (heap s) !! r = Some a →
  DrawingAction.cudOp a = UndoCUDOpEnum.update →
  DrawingAction.prevState a = Some p →
  DrawingAction.nextState a = Some n →
  DrawingAction.entity a < length (DrawingAction.entities (heap s)) →
  DrawingAction.entities (heap s) !!! DrawingAction.entity a
    = DrawingAction.snapshots (heap s) !!! n →
  dom (props (DrawingAction.snapshots (heap s) !!! p))
    ⊆ dom (props (DrawingAction.snapshots (heap s) !!! n)) →
  DrawingAction.entities (heap (undoLast None s)) !!! DrawingAction.entity a
    = assign (DrawingAction.snapshots (heap s) !!! n) (DrawingAction.snapshots (heap s) !!! p) ∧
  DrawingAction.entities (heap (redoLast None (undoLast None s))) !!! DrawingAction.entity a
    = DrawingAction.entities (heap s) !!! DrawingAction.entity a ∧
  redoLast None (undoLast None s) = s ∧
  ∀ k, Nat.iter k (λ s, redoLast None (undoLast None s)) s = s.
Proof.
  intros Hlast Hact Hl1 Ha Hop Hp Hn He Hent Hdom.
  assert (Hst : DrawingAction.status a = UndoStateEnum.restored).
  { apply last_Some in Hlast as [l' Hl'].
    assert (Hin : r ∈ undoable None s) by (rewrite Hl'; apply elem_of_app; right; apply list_elem_of_here).
    unfold undoable, able in Hin. apply list_elem_of_filter in Hin as [Hin _].
    unfold statusOf in Hin. by rewrite (list_lookup_total_correct _ _ _ Ha) in Hin. }
  assert (Hundo : undoLast None s = with_heap (DrawingAction.undo r (heap s)) s).
  { rewrite undoLast_last, Hlast; simpl.
    by rewrite (list_lookup_total_correct _ _ _ Ha), Hop. }
  assert (Hr : r < length (DrawingAction.records (heap s))) by (by eapply lookup_lt_Some).
  assert (Hhead : head (redoable None (undoLast None s)) = Some r).
  { rewrite Hundo. unfold redoable, able; simpl. rewrite Hact.
    apply head_filter_first.
    - eapply Forall_impl; [exact Hl1|]. intros x Hx Hu.
      destruct (decide (x = r)) as [|Hne]; [done|]. exfalso. apply Hx.
      unfold statusOf in *. unfold DrawingAction.undo in Hu.
      by rewrite switchState_record_ne in Hu.
    - unfold statusOf, DrawingAction.undo. rewrite switchState_status.
      by rewrite decide_True. }
  assert (Hrt : redoLast None (undoLast None s) = s).
  { rewrite redoLast_head, Hhead. cbv zeta. rewrite Hundo. cbn [heap with_heap].
    rewrite undo_cudOp, (list_lookup_total_correct _ _ _ Ha), Hop.
    cbn [heap with_heap].
    rewrite (undo_redo_heap r (heap s) a p n) by done.
    by destruct s. }
  split; [|split; [by rewrite Hrt|split; [done|]]].
  - rewrite Hundo. cbn [heap with_heap]. unfold DrawingAction.undo.
    rewrite (switchState_entity _ _ _ a p) by done. by rewrite Hent.
  - intros k. induction k as [|k IH]; simpl; [done|]. by rewrite IH.
Qed.

Lemma C2_undo_redo_roundtrip_witness :
  let s := run (editCycle (0, shape "X" "x" 1)) (new 2 (hostHeap [shape "X" "x" 0])) in
  redoLast None (undoLast None s) = s.
Proof.
  intros s.
  refine (proj1 (proj2 (proj2 (C2_undo_redo_roundtrip s 0
            (DrawingAction.mk 0 (Some 0) (Some 1) UndoStateEnum.restored UndoCUDOpEnum.update)
            0 1 [] [] _ _ _ _ _ _ _ _ _ _)))).
  - reflexivity.
  - reflexivity.
  - constructor.
  - reflexivity.
  - reflexivity.
  - reflexivity.
  - reflexivity.
  - simpl. lia.
  - reflexivity.
  - apply (bool_decide_unpack _). vm_compute. exact I.
Defined.

(** C2 does not hold as stated, in two ways.  First: the edit removed the
    field [y]; undo writes it back and redo, which only writes the fields
    of the later snapshot, leaves it there.  Second: an earlier record is
    undone; [undoLast ()] reverts the last record and [redoLast ()] then
    replays the earlier one, so the entity of the last record stays
    reverted. *)
Lemma C2_counterexample :
  (let s := run [Start [0] UndoCUDOpEnum.update;
                 HostEdit 0 (mkObj "e" {[ "x" := VNum 1 ]});
                 Store [0]]
              (new 10 (hostHeap [mkObj "e" (<[ "y" := VNum 5 ]> {[ "x" := VNum 0 ]})])) in
   actions s = [0] ∧
   DrawingAction.records (heap s) !! 0 =
     Some (DrawingAction.mk 0 (Some 0) (Some 1) UndoStateEnum.restored UndoCUDOpEnum.update) ∧
   DrawingAction.entities (heap s) !! 0 = DrawingAction.snapshots (heap s) !! 1 ∧
   DrawingAction.entities (heap s) !! 0 = Some (mkObj "e" {[ "x" := VNum 1 ]}) ∧
   DrawingAction.entities (heap (redoLast None (undoLast None s))) !! 0 =
     Some (mkObj "e" (<[ "y" := VNum 5 ]> {[ "x" := VNum 1 ]})) ∧
   DrawingAction.entities (heap (redoLast None (undoLast None s))) !! 0 ≠
     DrawingAction.entities (heap s) !! 0) ∧
  (let s := run (editCycle (0, shape "A" "a" 1) ++ [UndoLast None]
                   ++ editCycle (1, shape "B" "b" 1))
              (new 10 (hostHeap [shape "A" "a" 0; shape "B" "b" 0])) in
   actions s = [0; 1] ∧
   DrawingAction.records (heap s) !! 1 =
     Some (DrawingAction.mk 1 (Some 2) (Some 3) UndoStateEnum.restored UndoCUDOpEnum.update) ∧
   DrawingAction.entities (heap s) !! 1 = DrawingAction.snapshots (heap s) !! 3 ∧
   DrawingAction.entities (heap s) !! 1 = Some (shape "B" "b" 1) ∧
   DrawingAction.entities (heap (redoLast None (undoLast None s))) !! 1 =
     Some (shape "B" "b" 0) ∧
   DrawingAction.entities (heap (redoLast None (undoLast None s))) !! 1 ≠
     DrawingAction.entities (heap s) !! 1).
Proof.
  split.
  - vm_compute. repeat split; try reflexivity. intros H. discriminate H.
  - vm_compute. repeat split; try reflexivity. intros H. discriminate H.
Qed.

(** C3.  In a service with [maxActions = N >= 1] whose log is within the
    bound, an append keeps it within the bound: below the bound the record
    is added at the end, at the bound the record at index 0 goes and the
    new one is added at the end; and the log of a new service is within the
    bound after any sequence of calls.  After [N + 5] edits, each staged and
    committed, in a new service, the log holds exactly [N] records: those
    of the last [N] edits, in the order of the edits. *)
Theorem C3_log_bound (N : Z) s a cs h :
  (1 ≤ N)%Z →
  maxActions s = N →
  (Z.of_nat (length (actions s)) ≤ N)%Z →
  length cs = Z.to_nat N + 5 →
  ((Z.of_nat (length (actions (storeAction a s))) ≤ N)%Z ∧
   ((Z.of_nat (length (actions s)) < N)%Z →
      actions (storeAction a s) = actions s ++ [a]) ∧
   ((Z.of_nat (length (actions s)) = N)%Z →
      actions (storeAction a s) = drop 1 (actions s) ++ [a])) ∧
  (∀ ops, (Z.of_nat (length (actions (run ops (new N h)))) ≤ N)%Z) ∧
  let s' := run (editCycles cs) (new N h) in
  Z.of_nat (length (actions s')) = N ∧
  actions s' = seq (length (DrawingAction.records h) + 5) (Z.to_nat N) ∧
  (∀ i c, cs !! (5 + i) = Some c →
     actions s' !! i = Some (length (DrawingAction.records h) + 5 + i) ∧
     DrawingAction.records (heap s') !! (length (DrawingAction.records h) + 5 + i) =
       Some (DrawingAction.mk c.1
               (Some (length (DrawingAction.snapshots h) + 2 * (5 + i)))
               (Some (S (length (DrawingAction.snapshots h) + 2 * (5 + i))))
               UndoStateEnum.restored UndoCUDOpEnum.update)).
Proof.
  intros HN Hmax Hlen Hcs. split; [|split].
  - rewrite (storeAction_bounded a s (Z.to_nat N)) by lia.
    split; [|split].
    + rewrite length_drop, length_app; simpl. lia.
    + intros Hlt. replace (length (actions s) + 1 - Z.to_nat N) with 0 by lia. done.
    + intros Heq. replace (length (actions s) + 1 - Z.to_nat N) with 1 by lia.
      destruct (actions s); simpl in *; [lia|]. by rewrite !drop_0.
  - intros ops.
    assert (length (actions (run ops (new N h))) ≤ Z.to_nat N); [|lia].
    apply run_bounded; simpl; lia.
  - intros s'.
    destruct (editCycles_run (Z.to_nat N) cs h) as (Hact & _ & _ & _ & Hrec).
    rewrite Z2Nat.id in Hact, Hrec by lia. fold s' in Hact, Hrec.
    assert (Hseq : actions s' = seq (length (DrawingAction.records h) + 5) (Z.to_nat N)).
    { rewrite Hact, drop_seq, Hcs. f_equal; lia. }
    split; [rewrite Hseq, length_seq; lia|]. split; [done|].
    intros i c Hc.
    assert (Hi : i < Z.to_nat N).
    { apply lookup_lt_Some in Hc. lia. }
    split.
    + rewrite Hseq. by apply lookup_seq_lt.
    + rewrite Hrec. rewrite lookup_app_r by lia.
      replace (length (DrawingAction.records h) + 5 + i - length (DrawingAction.records h))
        with (5 + i) by lia.
      rewrite list_lookup_imap, Hc. reflexivity.
Qed.

Lemma C3_log_bound_witness :
  let cs := [(0, shape "a" "x" 1); (1, shape "b" "x" 1); (0, shape "a" "x" 2);
             (1, shape "b" "x" 2); (0, shape "a" "x" 3); (1, shape "b" "x" 3);
             (0, shape "a" "x" 4)] in
  let s' := run (editCycles cs) (new 2 (hostHeap [shape "a" "x" 0; shape "b" "x" 0])) in
  actions s' = [5; 6].
Proof.
  intros cs s'.
  pose proof (C3_log_bound 2 (new 2 (hostHeap [])) 0 cs
                (hostHeap [shape "a" "x" 0; shape "b" "x" 0])) as H.
  destruct H as (_ & _ & _ & H & _); [lia|reflexivity|simpl; lia|reflexivity|].
  exact H.
Defined.

(** C4.  [undoLast] works on the last record of the filtered list of
    restored records, [redoLast] on the first record of the filtered list
    of undone records: that record is switched and nothing else of the
    service changes; no record after (before) it in [actions] passes the
    filter.  When the filtered list is empty the call returns the state
    it was given. *)
Theorem C4_undo_takes_last_redo_takes_first s ids :
  match last (filter (considered UndoStateEnum.restored ids s) (actions s)) with
  | None => undoLast ids s = s
  | Some r =>
      heap (undoLast ids s) = DrawingAction.undo r (heap s) ∧
      actions (undoLast ids s) = actions s ∧
      pending (undoLast ids s) = pending s ∧
      ∃ l1 l2, actions s = l1 ++ r :: l2 ∧
               considered UndoStateEnum.restored ids s r ∧
               Forall (λ x, ¬ considered UndoStateEnum.restored ids s x) l2
  end ∧
  match head (filter (considered UndoStateEnum.undone ids s) (actions s)) with
  | None => redoLast ids s = s
  | Some r =>
      heap (redoLast ids s) = DrawingAction.redo r (heap s) ∧
      actions (redoLast ids s) = actions s ∧
      pending (redoLast ids s) = pending s ∧
      ∃ l1 l2, actions s = l1 ++ r :: l2 ∧
               considered UndoStateEnum.undone ids s r ∧
               Forall (λ x, ¬ considered UndoStateEnum.undone ids s x) l1
  end.
Proof.
  split.
  - rewrite <- able_considered. fold (undoable ids s).
    destruct (last (undoable ids s)) as [r|] eqn:Hr.
    + split; [by apply undoLast_heap|].
      split; [apply undoLast_actions|]. split; [apply undoLast_pending|].
      unfold undoable in Hr. rewrite able_considered in Hr.
      assert (Hin : r ∈ filter (considered UndoStateEnum.restored ids s) (actions s)).
      { apply last_Some in Hr as [l' ->]. apply elem_of_app. right. apply list_elem_of_here. }
      apply list_elem_of_filter in Hin as [Hc _].
      apply last_filter_Some in Hr as (l1 & l2 & ? & ?). eauto.
    + by rewrite undoLast_last, Hr.
  - rewrite <- able_considered. fold (redoable ids s).
    destruct (head (redoable ids s)) as [r|] eqn:Hr.
    + split; [by apply redoLast_heap|].
      split; [apply redoLast_actions|]. split; [apply redoLast_pending|].
      unfold redoable in Hr. rewrite able_considered in Hr.
      assert (Hin : r ∈ filter (considered UndoStateEnum.undone ids s) (actions s)).
      { apply head_Some in Hr as [l' ->]. apply list_elem_of_here. }
      apply list_elem_of_filter in Hin as [Hc _].
      apply head_filter_Some in Hr as (l1 & l2 & ? & ?). eauto.
    + by rewrite redoLast_head, Hr.
Qed.

(** C5, in the form that holds of the code.  Each callback is called only
    when the host has set it, and the two are looked at apart.  For the
    record [undoLast] selects: a creation gives the single call
    [deleteRequested (entity.entityId)] when [deleteRequested] is set; a
    deletion gives the single call [createRequested (entity)], with the
    tracked entity itself and not a snapshot of it, when [createRequested]
    is set; an update, or a callback that is not set, gives no call.
    [redoLast] does the same with the two callbacks exchanged.  In a
    service that keeps at least one record, [start [e] create] followed at
    once by [undoLast ()] makes the single call
    [deleteRequested (e.entityId)] when that callback is set and no call
    when it is not. *)
Theorem C5_host_callbacks s ids :
  (∀ r, last (undoable ids s) = Some r →
     calls (undoLast ids s) = calls s ++
       match DrawingAction.cudOp (DrawingAction.records (heap s) !!! r) with
       | UndoCUDOpEnum.create =>
           if deleteRequested s then [DeleteRequested (idOf (heap s) r)] else []
       | UndoCUDOpEnum.delete =>
           if createRequested s
           then [CreateRequested (DrawingAction.entity (DrawingAction.records (heap s) !!! r))]
           else []
       | UndoCUDOpEnum.update => []
       end) ∧
  (∀ r, head (redoable ids s) = Some r →
     calls (redoLast ids s) = calls s ++
       match DrawingAction.cudOp (DrawingAction.records (heap s) !!! r) with
       | UndoCUDOpEnum.create =>
           if createRequested s
           then [CreateRequested (DrawingAction.entity (DrawingAction.records (heap s) !!! r))]
           else []
       | UndoCUDOpEnum.delete =>
           if deleteRequested s then [DeleteRequested (idOf (heap s) r)] else []
       | UndoCUDOpEnum.update => []
       end) ∧
  (∀ e, (1 ≤ maxActions s)%Z →
     calls (undoLast None (start [e] UndoCUDOpEnum.create s)) =
     calls s ++
       if deleteRequested s
       then [DeleteRequested (entityId (DrawingAction.entities (heap s) !!! e))]
       else []).
Proof.
  split; [|split].
  - intros r Hr. rewrite undoLast_last, Hr; simpl.
    destruct (DrawingAction.cudOp _); simpl.
    + by rewrite List.app_nil_r.
    + destruct (deleteRequested s); simpl; [done|by rewrite List.app_nil_r].
    + destruct (createRequested s); simpl; [done|by rewrite List.app_nil_r].
  - intros r Hr. rewrite redoLast_head, Hr; simpl.
    destruct (DrawingAction.cudOp _); simpl.
    + by rewrite List.app_nil_r.
    + destruct (createRequested s); simpl; [done|by rewrite List.app_nil_r].
    + destruct (deleteRequested s); simpl; [done|by rewrite List.app_nil_r].
  - intros e Hmax.
    rewrite start_one_stored by done.
    set (r := length (DrawingAction.records (heap s))).
    match goal with |- context [storeAction r ?s0] => set (s1 := storeAction r s0) end.
    assert (Hheap : heap s1 = DrawingAction.mkHeap (DrawingAction.entities (heap s))
          (DrawingAction.snapshots (heap s)
             ++ [jsonClone (DrawingAction.entities (heap s) !!! e)]
             ++ [jsonClone (DrawingAction.entities (heap s) !!! e)])
          (DrawingAction.records (heap s)
             ++ [DrawingAction.mk e (Some (length (DrawingAction.snapshots (heap s))))
                   (Some (S (length (DrawingAction.snapshots (heap s)))))
                   UndoStateEnum.restored UndoCUDOpEnum.create]))
      by apply storeAction_heap.
    assert (Hrec : DrawingAction.records (heap s1) !!! r =
              DrawingAction.mk e (Some (length (DrawingAction.snapshots (heap s))))
                (Some (S (length (DrawingAction.snapshots (heap s)))))
                UndoStateEnum.restored UndoCUDOpEnum.create).
    { rewrite Hheap; simpl. by apply list_lookup_total_middle. }
    assert (Hlast : last (undoable None s1) = Some r).
    { unfold undoable, able. apply last_filter_keep.
      - by apply storeAction_last.
      - unfold statusOf. by rewrite Hrec. }
    rewrite undoLast_last, Hlast; simpl. rewrite Hrec; simpl.
    assert (Hdel : deleteRequested s1 = deleteRequested s).
    { unfold s1, storeAction, checkMax; simpl. by case_bool_decide. }
    rewrite Hdel. destruct (deleteRequested s); simpl.
    + unfold idOf. rewrite Hrec; simpl.
      rewrite Hheap; simpl. unfold s1. by rewrite storeAction_calls.
    + unfold s1. by rewrite storeAction_calls, List.app_nil_r.
Qed.

Lemma C5_host_callbacks_witness :
  let s := run [HostListen false true] (new 5 (hostHeap [shape "e" "x" 0])) in
  calls (undoLast None (start [0] UndoCUDOpEnum.create s)) = [DeleteRequested "e"].
Proof.
  intros s.
  destruct (C5_host_callbacks s None) as (_ & _ & H).
  apply (H 0). simpl. lia.
Defined.

(** C5 does not hold as stated, in three ways.  First: the host has set no
    callback; [start [e] create] and [undoLast ()] select the creation and
    undo it, and nothing is called.  Second: the service is built with
    [maxActions = 0] and both callbacks are set; the record of the creation
    leaves the log at once, [undoLast ()] selects nothing and nothing is
    called.  Third: an entity is deleted, then edited by the host; the undo
    calls [createRequested] with the entity itself, which holds the edited
    field at the call, and not with the snapshot the record keeps. *)
Lemma C5_counterexample :
  (let s := new 5 (hostHeap [shape "e" "x" 0]) in
   let s1 := start [0] UndoCUDOpEnum.create s in
   last (undoable None s1) = Some 0 ∧
   DrawingAction.cudOp (DrawingAction.records (heap s1) !!! 0) = UndoCUDOpEnum.create ∧
   statusOf (heap (undoLast None s1)) 0 = UndoStateEnum.undone ∧
   calls (undoLast None s1) = [] ∧
   calls (undoLast None s1) ≠ [DeleteRequested "e"]) ∧
  (let s := run [HostListen true true] (new 0 (hostHeap [shape "e" "x" 0])) in
   let s1 := start [0] UndoCUDOpEnum.create s in
   createRequested s1 = true ∧
   deleteRequested s1 = true ∧
   actions s1 = [] ∧
   calls (undoLast None s1) = [] ∧
   calls (undoLast None s1) ≠ [DeleteRequested "e"]) ∧
  (let s := run [HostListen true true; Start [0] UndoCUDOpEnum.delete;
                 HostEdit 0 (shape "e" "x" 9)]
              (new 5 (hostHeap [shape "e" "x" 0])) in
   last (undoable None s) = Some 0 ∧
   DrawingAction.records (heap s) !! 0 =
     Some (DrawingAction.mk 0 (Some 0) (Some 1) UndoStateEnum.restored UndoCUDOpEnum.delete) ∧
   calls (undoLast None s) = [CreateRequested 0] ∧
   DrawingAction.entities (heap s) !! 0 = Some (shape "e" "x" 9) ∧
   DrawingAction.snapshots (heap s) !! 0 = Some (shape "e" "x" 0) ∧
   DrawingAction.snapshots (heap s) !! 1 = Some (shape "e" "x" 0) ∧
   DrawingAction.entities (heap s) !! 0 ≠ DrawingAction.snapshots (heap s) !! 0).
Proof.
  split; [|split].
  - vm_compute. repeat split; try reflexivity. intros H. discriminate H.
  - vm_compute. repeat split; try reflexivity. intros H. discriminate H.
  - vm_compute. repeat split; try reflexivity. intros H. discriminate H.
Qed.

(** C6.  The list [able] hands to [undoLast] and [redoLast] is [actions]
    filtered, in order, by the rule of the specification: with [ids] left
    out or empty, every record with the required status; otherwise the
    records with the required status whose entity's id is in [ids]. *)
Theorem C6_filtering_rule st ids s :
  able st ids s = filter (considered st ids s) (actions s) ∧
  undoable ids s = filter (considered UndoStateEnum.restored ids s) (actions s) ∧
  redoable ids s = filter (considered UndoStateEnum.undone ids s) (actions s) ∧
  (∀ x, x ∈ able st ids s ↔
        x ∈ actions s ∧ statusOf (heap s) x = st ∧
        (ids = None ∨ ids = Some [] ∨ ∃ l, ids = Some l ∧ idOf (heap s) x ∈ l)).
Proof.
  split; [apply able_considered|].
  split; [apply able_considered|]. split; [apply able_considered|].
  intros x. rewrite able_considered, list_elem_of_filter. unfold considered.
  split.
  - intros [[Hst Hid] Hin]. split; [done|]. split; [done|].
    destruct ids as [l|]; [|by left]. right. simpl in Hid.
    destruct Hid as [->|Hid]; [by left|]. right. eauto.
  - intros (Hin & Hst & Hid). split; [|done]. split; [done|].
    destruct Hid as [->|[->|(l & -> & Hid)]]; simpl; auto.
Qed.

(** C7, in the form that holds of the code.  [A] and [B] have different
    ids, each has a restored update record in the log, and [A]'s is the only
    record of the log with [A]'s id.  After [undoLast [A.id]] the entity [A]
    is the prior snapshot written over what [A] held: every field of the
    prior snapshot has its prior value, and [A] is the prior snapshot itself
    when it had no field beyond those.  Every other entity, [B] among them,
    is as it was, and so is [B]'s record; [A]'s record is undone; no
    callback is called. *)
Theorem C7_selective_undo s rA rB a b pA :
  rA ∈ actions s →
  rB ∈ actions s →
  DrawingAction.records (heap s) !! rA = Some a →
  DrawingAction.records (heap s) !! rB = Some b →
  DrawingAction.cudOp a = UndoCUDOpEnum.update →
  DrawingAction.cudOp b = UndoCUDOpEnum.update →
  DrawingAction.status a = UndoStateEnum.restored →
  DrawingAction.status b = UndoStateEnum.restored →
  DrawingAction.prevState a = Some pA →
  DrawingAction.entity a < length (DrawingAction.entities (heap s)) →
  entityId (DrawingAction.entities (heap s) !!! DrawingAction.entity b)
    ≠ entityId (DrawingAction.entities (heap s) !!! DrawingAction.entity a) →
  (∀ x, x ∈ actions s →
        idOf (heap s) x = entityId (DrawingAction.entities (heap s) !!! DrawingAction.entity a) →
        x = rA) →
  let A := DrawingAction.entities (heap s) !!! DrawingAction.entity a in
  let P := DrawingAction.snapshots (heap s) !!! pA in
  let s' := undoLast (Some [entityId A]) s in
  DrawingAction.entities (heap s') !!! DrawingAction.entity a = assign A P ∧
  (∀ k v, props P !! k = Some v →
          props (DrawingAction.entities (heap s') !!! DrawingAction.entity a) !! k = Some v) ∧
  (dom (props A) ⊆ dom (props P) →
   DrawingAction.entities (heap s') !!! DrawingAction.entity a = P) ∧
  (∀ e, e ≠ DrawingAction.entity a →
        DrawingAction.entities (heap s') !!! e = DrawingAction.entities (heap s) !!! e) ∧
  DrawingAction.entities (heap s') !!! DrawingAction.entity b
    = DrawingAction.entities (heap s) !!! DrawingAction.entity b ∧
  DrawingAction.records (heap s') !!! rB = b ∧
  DrawingAction.status (DrawingAction.records (heap s') !!! rA) = UndoStateEnum.undone ∧
  actions s' = actions s ∧
  calls s' = calls s.
Proof.
  intros HinA HinB Ha Hb HopA HopB HstA HstB Hp He Hid Honly A P s'.
  assert (HrA : DrawingAction.records (heap s) !!! rA = a)
    by (by apply list_lookup_total_correct).
  assert (HrB : DrawingAction.records (heap s) !!! rB = b)
    by (by apply list_lookup_total_correct).
  assert (Hlast : last (undoable (Some [entityId A]) s) = Some rA).
  { unfold undoable, able. apply last_filter_only; [|done|].
    - intros x Hx [Hidx _]. apply list_elem_of_singleton in Hidx. by apply Honly.
    - split; [|by unfold statusOf; rewrite HrA].
      apply list_elem_of_singleton. unfold idOf. by rewrite HrA. }
  assert (Hundo : s' = with_heap (DrawingAction.undo rA (heap s)) s).
  { unfold s'. rewrite undoLast_last, Hlast. cbv zeta. by rewrite HrA, HopA. }
  assert (Hne : rB ≠ rA).
  { intros ->. rewrite Ha in Hb. by injection Hb as ->. }
  assert (HeA : DrawingAction.entities (heap s') !!! DrawingAction.entity a = assign A P).
  { rewrite Hundo. cbn [heap with_heap]. unfold DrawingAction.undo.
    by rewrite (switchState_entity _ _ _ a pA). }
  assert (Hframe : ∀ e, e ≠ DrawingAction.entity a →
            DrawingAction.entities (heap s') !!! e = DrawingAction.entities (heap s) !!! e).
  { intros e Hne'. rewrite Hundo. cbn [heap with_heap]. unfold DrawingAction.undo.
    apply switchState_entity_ne. by rewrite HrA. }
  split; [done|]. split; [|split; [|split; [done|split; [|split; [|split]]]]].
  - intros k v Hk. rewrite HeA. by apply assign_lookup.
  - intros Hdom. rewrite HeA. by apply assign_covered.
  - apply Hframe. intros Heq. apply Hid. by rewrite Heq.
  - rewrite Hundo. cbn [heap with_heap]. unfold DrawingAction.undo.
    by rewrite switchState_record_ne.
  - rewrite Hundo. cbn [heap with_heap]. unfold DrawingAction.undo.
    rewrite switchState_status. rewrite decide_True; [done|].
    split; [done|]. by eapply lookup_lt_Some.
  - by rewrite Hundo.
Qed.

Lemma C7_selective_undo_witness :
  let s := run (editCycle (0, shape "A" "x" 1) ++ editCycle (1, shape "B" "y" 1))
             (new 5 (hostHeap [shape "A" "x" 0; shape "B" "y" 0])) in
  let s' := undoLast (Some ["A"]) s in
  DrawingAction.entities (heap s') !!! 0 = shape "A" "x" 0 ∧
  DrawingAction.entities (heap s') !!! 1 = shape "B" "y" 1 ∧
  statusOf (heap s') 1 = UndoStateEnum.restored.
Proof.
  intros s s'.
  pose proof (C7_selective_undo s 0 1
    (DrawingAction.mk 0 (Some 0) (Some 1) UndoStateEnum.restored UndoCUDOpEnum.update)
    (DrawingAction.mk 1 (Some 2) (Some 3) UndoStateEnum.restored UndoCUDOpEnum.update) 0) as H.
  destruct H as (_ & _ & HA & _ & HB & HrB & _).
  - vm_compute. apply list_elem_of_here.
  - vm_compute. apply list_elem_of_further, list_elem_of_here.
  - reflexivity.
  - reflexivity.
  - reflexivity.
  - reflexivity.
  - reflexivity.
  - reflexivity.
  - reflexivity.
  - simpl. lia.
  - vm_compute. discriminate.
  - intros x Hx. change (actions s) with [0; 1] in Hx.
    apply elem_of_cons in Hx as [->|Hx]; [done|].
    apply list_elem_of_singleton in Hx as ->. vm_compute. discriminate.
  - split; [|split].
    + apply HA. apply (bool_decide_unpack _). vm_compute. exact I.
    + exact HB.
    + exact (f_equal DrawingAction.status HrB).
Defined.

(** C7 does not hold as stated when the edit gave [A] a field it did not have:
    the undo writes [x] back and leaves [w] on [A], which is then not the
    entity of before the edit. *)
Lemma C7_counterexample :
  let s := run [Start [0; 1] UndoCUDOpEnum.update;
                HostEdit 0 (mkObj "A" (<[ "w" := VNum 7 ]> {[ "x" := VNum 1 ]}));
                HostEdit 1 (shape "B" "y" 1);
                Store [0; 1]]
             (new 5 (hostHeap [shape "A" "x" 0; shape "B" "y" 0])) in
  let s' := undoLast (Some ["A"]) s in
  actions s = [0; 1] ∧
  DrawingAction.records (heap s) =
    [DrawingAction.mk 0 (Some 0) (Some 2) UndoStateEnum.restored UndoCUDOpEnum.update;
     DrawingAction.mk 1 (Some 1) (Some 3) UndoStateEnum.restored UndoCUDOpEnum.update] ∧
  DrawingAction.snapshots (heap s) !! 0 = Some (shape "A" "x" 0) ∧
  DrawingAction.entities (heap s') !! 0 =
    Some (mkObj "A" (<[ "w" := VNum 7 ]> {[ "x" := VNum 0 ]})) ∧
  DrawingAction.entities (heap s') !! 0 ≠ DrawingAction.snapshots (heap s) !! 0.
Proof.
  vm_compute. repeat split; try reflexivity. intros H. discriminate H.
Qed.

(** C8.  A service built with [maxActions <= 0] keeps no history: after
    any sequence of calls and host edits the log is empty, and [undoLast]
    and [redoLast] return the state they were given. *)
Theorem C8_no_history (N : Z) h ops :
  (N ≤ 0)%Z →
  let s := run ops (new N h) in
  actions s = [] ∧ ∀ ids, undoLast ids s = s ∧ redoLast ids s = s.
Proof.
  intros HN s.
  assert (Hact : actions s = []) by (by apply run_no_history).
  split; [done|]. intros ids. split.
  - rewrite undoLast_last. unfold undoable. by rewrite able_considered, Hact.
  - rewrite redoLast_head. unfold redoable. by rewrite able_considered, Hact.
Qed.

Lemma C8_no_history_witness :
  let s := run (Start [0] UndoCUDOpEnum.create :: editCycle (0, shape "a" "x" 1))
             (new 0 (hostHeap [shape "a" "x" 0])) in
  actions s = [] ∧ ∀ ids, undoLast ids s = s ∧ redoLast ids s = s.
Proof.
  apply (C8_no_history 0 (hostHeap [shape "a" "x" 0])
           (Start [0] UndoCUDOpEnum.create :: editCycle (0, shape "a" "x" 1))).
  lia.
Defined.

(** C9.  [abort] empties [pending] and leaves everything else as it was:
    the heap (no entity written, no snapshot taken, no record touched),
    the log and the calls made.  A [store] after an [abort] finds no
    staged record and changes nothing at all, whatever entities it is
    given; in particular the log after [start], [abort], [store] is the
    log before. *)
Theorem C9_abort_discards_staging s es :
  pending (abort s) = [] ∧
  heap (abort s) = heap s ∧
  actions (abort s) = actions s ∧
  calls (abort s) = calls s ∧
  store es (abort s) = abort s ∧
  heap (store es (abort (start es UndoCUDOpEnum.update s))) =
    heap (start es UndoCUDOpEnum.update s) ∧
  actions (store es (abort (start es UndoCUDOpEnum.update s))) = actions s.
Proof.
  assert (Hstore : ∀ s', store es (abort s') = abort s').
  { intros s'. unfold store, abort.
    assert (Hfold : ∀ s0, pending s0 = [] → foldl store_each s0 es = s0).
    { induction es as [|e es IH]; intros s0 Hp; simpl; [done|].
      unfold store_each at 2. rewrite Hp; simpl. by apply IH. }
    by rewrite Hfold. }
  assert (Hstart : ∀ l s', actions (start l UndoCUDOpEnum.update s') = actions s').
  { intros l. unfold start. induction l as [|e l IH]; intros s'; simpl; [done|].
    by rewrite IH. }
  repeat split; try done.
  - by rewrite Hstore.
  - by rewrite Hstore; simpl; rewrite Hstart.
Qed.

(** C10.  In every state the service reaches from [new UndoService (N)],
    whatever the calls and host edits, each record of the log is allocated
    and has status restored or undone, never pending; a record whose status
    is pending is not in the log.  A record starts pending, [store] makes it
    restored, [undo] makes it undone and [redo] restored. *)
Theorem C10_log_never_pending (N : Z) h ops :
  let s := run ops (new N h) in
  (∀ x, x ∈ actions s →
        x < length (DrawingAction.records (heap s)) ∧
        statusOf (heap s) x ≠ UndoStateEnum.pending ∧
        (statusOf (heap s) x = UndoStateEnum.restored ∨
         statusOf (heap s) x = UndoStateEnum.undone)) ∧
  (∀ x, x < length (DrawingAction.records (heap s)) →
        statusOf (heap s) x = UndoStateEnum.pending → x ∉ actions s) ∧
  (∀ e op h0, statusOf (DrawingAction.new e op h0).2 (DrawingAction.new e op h0).1
              = UndoStateEnum.pending) ∧
  (∀ this e h0, this < length (DrawingAction.records h0) →
        statusOf (DrawingAction.store this e h0).2 this = UndoStateEnum.restored) ∧
  (∀ this h0, this < length (DrawingAction.records h0) →
        statusOf (DrawingAction.undo this h0) this = UndoStateEnum.undone ∧
        statusOf (DrawingAction.redo this h0) this = UndoStateEnum.restored).
Proof.
  intros s.
  assert (Hinv : log_inv s).
  { apply log_inv_run. split; constructor. }
  destruct Hinv as [Ha _].
  assert (Hall : ∀ x, x ∈ actions s →
            x < length (DrawingAction.records (heap s)) ∧
            statusOf (heap s) x ≠ UndoStateEnum.pending).
  { intros x Hx. by eapply Forall_forall in Ha. }
  split; [|split; [|split; [|split]]].
  - intros x Hx. destruct (Hall x Hx) as [Hlt Hst]. split; [done|]. split; [done|].
    destruct (statusOf (heap s) x); [done|by left|by right].
  - intros x _ Hst Hx. by destruct (Hall x Hx) as [_ []].
  - intros e op h0. rewrite new_eq. unfold statusOf; simpl.
    by rewrite list_lookup_total_middle.
  - apply store_status.
  - intros this h0 Hlt. unfold statusOf, DrawingAction.undo, DrawingAction.redo.
    rewrite !switchState_status. by rewrite !decide_True.
Qed.

End claims.

(** ** Further properties of the two classes *)

Section further.
Import UndoService.

Lemma start_update_run es s :
  let s' := start es UndoCUDOpEnum.update s in
  pending s' = pending s ++ seq (length (DrawingAction.records (heap s))) (length es) ∧
  actions s' = actions s ∧
  calls s' = calls s ∧
  maxActions s' = maxActions s ∧
  createRequested s' = createRequested s ∧
  deleteRequested s' = deleteRequested s ∧
  DrawingAction.entities (heap s') = DrawingAction.entities (heap s) ∧
  DrawingAction.snapshots (heap s') =
    DrawingAction.snapshots (heap s)
      ++ map (λ e, jsonClone (DrawingAction.entities (heap s) !!! e)) es ∧
  DrawingAction.records (heap s') =
    DrawingAction.records (heap s)
      ++ imap (λ i e, DrawingAction.mk e
                        (Some (length (DrawingAction.snapshots (heap s)) + i)) None
                        UndoStateEnum.pending UndoCUDOpEnum.update) es.
Proof.
  induction es as [|e es IH] using rev_ind; simpl.
  { rewrite !List.app_nil_r. done. }
  destruct IH as (Hp & Ha & Hc & Hm & Hcr & Hdr & He & Hs & Hr).
  unfold start in *. rewrite foldl_snoc. unfold start_each at 1.
  rewrite new_eq. cbv beta iota zeta.
  rewrite bool_decide_eq_false_2 by (intros H; by apply H). simpl.
  rewrite Hp, Ha, Hc, Hm, Hcr, Hdr, He, Hs, Hr.
  rewrite !length_app, length_imap, length_map; simpl.
  rewrite seq_app, map_app, imap_app; simpl.
  rewrite <- !app_assoc. rewrite Nat.add_0_r. done.
Qed.

(** X2.  [start] with the kind update stages one new record per entity, in
    the order given, each pending and holding the JSON snapshot of its
    entity as prior state and no later state; it leaves the log, the
    entities and the staged records there were as they are, and calls
    nothing. *)
Theorem X2_start_update_stages es s :
  let s' := start es UndoCUDOpEnum.update s in
  pending s' = pending s ++ seq (length (DrawingAction.records (heap s))) (length es) ∧
  actions s' = actions s ∧
  calls s' = calls s ∧
  DrawingAction.entities (heap s') = DrawingAction.entities (heap s) ∧
  (∀ x a, DrawingAction.records (heap s) !! x = Some a →
          DrawingAction.records (heap s') !! x = Some a) ∧
  (∀ i e, es !! i = Some e →
     ∃ p, DrawingAction.records (heap s') !! (length (DrawingAction.records (heap s)) + i) =
            Some (DrawingAction.mk e (Some p) None UndoStateEnum.pending UndoCUDOpEnum.update) ∧
          DrawingAction.snapshots (heap s) !! p = None ∧
          DrawingAction.snapshots (heap s') !! p =
            Some (jsonClone (DrawingAction.entities (heap s) !!! e))).
Proof.
  intros s'. destruct (start_update_run es s) as (Hp & Ha & Hc & _ & _ & _ & He & Hs & Hr).
  fold s' in Hp, Ha, Hc, He, Hs, Hr.
  do 4 (split; [done|]). split.
  - intros x a Hx. rewrite Hr. by apply lookup_app_l_Some.
  - intros i e Hi. exists (length (DrawingAction.snapshots (heap s)) + i).
    split; [|split].
    + rewrite Hr, lookup_app_r by lia.
      replace (length (DrawingAction.records (heap s)) + i - length (DrawingAction.records (heap s)))
        with i by lia.
      by rewrite list_lookup_imap, Hi.
    + apply lookup_ge_None_2. lia.
    + rewrite Hs, lookup_app_r by lia.
      replace (length (DrawingAction.snapshots (heap s)) + i - length (DrawingAction.snapshots (heap s)))
        with i by lia.
      by rewrite list_lookup_fmap, Hi.
Qed.

Lemma start_stored_run op es s :
  op ≠ UndoCUDOpEnum.update →
  let s' := start es op s in
  pending s' = pending s ∧
  calls s' = calls s ∧
  maxActions s' = maxActions s ∧
  DrawingAction.entities (heap s') = DrawingAction.entities (heap s) ∧
  DrawingAction.snapshots (heap s') =
    DrawingAction.snapshots (heap s)
      ++ flat_map (λ e, [jsonClone (DrawingAction.entities (heap s) !!! e);
                         jsonClone (DrawingAction.entities (heap s) !!! e)]) es ∧
  DrawingAction.records (heap s') =
    DrawingAction.records (heap s)
      ++ imap (λ i e, DrawingAction.mk e
                        (Some (length (DrawingAction.snapshots (heap s)) + 2 * i))
                        (Some (S (length (DrawingAction.snapshots (heap s)) + 2 * i)))
                        UndoStateEnum.restored op) es.
Proof.
  intros Hop. induction es as [|e es IH] using rev_ind; simpl.
  { rewrite !List.app_nil_r. done. }
  destruct IH as (Hp & Hc & Hm & He & Hs & Hr).
  unfold start in *. rewrite foldl_snoc.
  change (start_each op ?s0 e) with (start [e] op s0).
  rewrite start_one_stored by done.
  rewrite storeAction_pending, storeAction_calls, storeAction_maxActions, storeAction_heap.
  simpl. rewrite Hp, Hc, Hm, He, Hs, Hr.
  do 4 (split; [done|]).
  assert (Hlen : ∀ l : list nat,
    length (flat_map (λ e0, [jsonClone (DrawingAction.entities (heap s) !!! e0);
                             jsonClone (DrawingAction.entities (heap s) !!! e0)]) l)
    = 2 * length l).
  { induction l; simpl; lia. }
  split.
  - rewrite flat_map_app; simpl. by rewrite <- app_assoc.
  - rewrite imap_app, length_app, Hlen, <- app_assoc. cbn [imap].
    do 2 f_equal. f_equal; f_equal; f_equal; lia.
Qed.

Lemma start_stored_actions op es s (n : nat) :
  op ≠ UndoCUDOpEnum.update →
  maxActions s = Z.of_nat n →
  length (actions s) ≤ n →
  actions (start es op s) =
    drop (length (actions s) + length es - n)
         (actions s ++ seq (length (DrawingAction.records (heap s))) (length es)).
Proof.
  intros Hop Hmax Hlen. induction es as [|e es IH] using rev_ind; simpl.
  { rewrite List.app_nil_r, Nat.add_0_r.
    by replace (length (actions s) - n) with 0 by lia. }
  destruct (start_stored_run op es s Hop) as (_ & _ & Hm & _ & _ & Hr).
  unfold start in *. rewrite foldl_snoc.
  change (start_each op ?s0 e) with (start [e] op s0).
  rewrite start_one_stored by done.
  rewrite (storeAction_bounded _ _ n); simpl.
  - rewrite IH, Hr, !length_app, length_imap, length_drop, length_app, length_seq; simpl.
    rewrite seq_app; simpl. rewrite app_assoc.
    rewrite <- (drop_app_le _ [_] (length (actions s) + length es - n))
      by (rewrite length_app, length_seq; lia).
    rewrite drop_drop. f_equal. lia.
  - by rewrite Hm.
  - rewrite IH, length_drop, length_app, length_seq. lia.
Qed.

(** X3.  [start] with the kind create or delete stages nothing: each entity
    gets a record that is completed at once, restored, whose two snapshots
    are the same JSON copy of the entity as it is, and the records go to the
    log in the order of the entities, the oldest records making room.  The
    entities are not written and the host is not called. *)
Theorem X3_start_create_delete_logs op es s (n : nat) :
  op ≠ UndoCUDOpEnum.update →
  maxActions s = Z.of_nat n →
  length (actions s) ≤ n →
  let s' := start es op s in
  let r0 := length (DrawingAction.records (heap s)) in
  actions s' = drop (length (actions s) + length es - n) (actions s ++ seq r0 (length es)) ∧
  length (actions s') ≤ n ∧
  pending s' = pending s ∧
  calls s' = calls s ∧
  DrawingAction.entities (heap s') = DrawingAction.entities (heap s) ∧
  (∀ i e, es !! i = Some e →
     ∃ p q, DrawingAction.records (heap s') !! (r0 + i) =
              Some (DrawingAction.mk e (Some p) (Some q) UndoStateEnum.restored op) ∧
            p ≠ q ∧
            DrawingAction.snapshots (heap s') !! p =
              Some (jsonClone (DrawingAction.entities (heap s) !!! e)) ∧
            DrawingAction.snapshots (heap s') !! q =
              Some (jsonClone (DrawingAction.entities (heap s) !!! e))).
Proof.
  intros Hop Hmax Hlen s' r0.
  destruct (start_stored_run op es s Hop) as (Hp & Hc & _ & He & Hs & Hr).
  fold s' in Hp, Hc, He, Hs, Hr.
  assert (Ha : actions s' = drop (length (actions s) + length es - n)
                              (actions s ++ seq r0 (length es)))
    by (by apply start_stored_actions).
  split; [done|]. split.
  { rewrite Ha, length_drop, length_app, length_seq. lia. }
  do 3 (split; [done|]).
  intros i e Hi.
  exists (length (DrawingAction.snapshots (heap s)) + 2 * i),
         (S (length (DrawingAction.snapshots (heap s)) + 2 * i)).
  assert (Hsnap : ∀ (l : list nat) j x, l !! j = Some x →
     flat_map (λ e0, [jsonClone (DrawingAction.entities (heap s) !!! e0);
                      jsonClone (DrawingAction.entities (heap s) !!! e0)]) l !! (2 * j)
       = Some (jsonClone (DrawingAction.entities (heap s) !!! x)) ∧
     flat_map (λ e0, [jsonClone (DrawingAction.entities (heap s) !!! e0);
                      jsonClone (DrawingAction.entities (heap s) !!! e0)]) l !! S (2 * j)
       = Some (jsonClone (DrawingAction.entities (heap s) !!! x))).
  { induction l as [|y l IHl]; intros j x Hj; [done|].
    destruct j as [|j]; simpl in *.
    - by injection Hj as ->.
    - replace (j + S (j + 0)) with (S (2 * j)) by lia. simpl.
      by apply IHl. }
  destruct (Hsnap es i e Hi) as [H1 H2].
  split; [|split; [lia|split]].
  - rewrite Hr, lookup_app_r by (unfold r0; lia).
    replace (r0 + i - length (DrawingAction.records (heap s))) with i by (unfold r0; lia).
    by rewrite list_lookup_imap, Hi.
  - rewrite Hs, lookup_app_r by lia.
    by replace (length (DrawingAction.snapshots (heap s)) + 2 * i
                  - length (DrawingAction.snapshots (heap s))) with (2 * i) by lia.
  - rewrite Hs, lookup_app_r by lia.
    by replace (S (length (DrawingAction.snapshots (heap s)) + 2 * i)
                  - length (DrawingAction.snapshots (heap s))) with (S (2 * i)) by lia.
Qed.

Lemma X3_start_create_delete_logs_witness :
  let s := run (editCycle (0, shape "a" "x" 1))
             (new 2 (hostHeap [shape "a" "x" 0; shape "b" "y" 0; shape "c" "z" 0])) in
  actions (start [1; 2] UndoCUDOpEnum.delete s) = [1; 2].
Proof.
  intros s.
  refine (proj1 (X3_start_create_delete_logs UndoCUDOpEnum.delete [1; 2] s 2 _ _ _)).
  - discriminate.
  - reflexivity.
  - simpl. lia.
Defined.

Lemma assign_self o : assign o o = o.
Proof. by apply assign_covered. Qed.

(** The state [undoLast ()] finds after a record was completed and logged
    last. *)
Lemma undoLast_logged_last s r a p :
  last (actions s) = Some r →
  DrawingAction.records (heap s) !! r = Some a →
  DrawingAction.status a = UndoStateEnum.restored →
  DrawingAction.prevState a = Some p →
  DrawingAction.entity a < length (DrawingAction.entities (heap s)) →
  heap (undoLast None s) = DrawingAction.undo r (heap s) ∧
  DrawingAction.entities (heap (undoLast None s)) =
    <[DrawingAction.entity a :=
        assign (DrawingAction.entities (heap s) !!! DrawingAction.entity a)
               (DrawingAction.snapshots (heap s) !!! p)]>
      (DrawingAction.entities (heap s)) ∧
  statusOf (heap (undoLast None s)) r = UndoStateEnum.undone.
Proof.
  intros Hlast Ha Hst Hp He.
  assert (Hr : DrawingAction.records (heap s) !!! r = a)
    by (by apply list_lookup_total_correct).
  assert (Hsel : last (undoable None s) = Some r).
  { unfold undoable, able. apply last_filter_keep; [done|].
    unfold statusOf. by rewrite Hr. }
  assert (Hheap : heap (undoLast None s) = DrawingAction.undo r (heap s))
    by (by apply undoLast_heap).
  split; [done|]. rewrite Hheap. split.
  - unfold DrawingAction.undo, DrawingAction.switchState; simpl. by rewrite Hr, Hp.
  - unfold statusOf, DrawingAction.undo. rewrite switchState_status.
    rewrite decide_True; [done|]. split; [done|]. by eapply lookup_lt_Some.
Qed.

(** X4.  Undo of a creation (or of a deletion) right after [start]: the
    record is the one [undoLast ()] selects, it becomes undone, and what is
    written onto the entity is the JSON copy of the entity itself.  An
    entity that JSON copies faithfully keeps its fields; no other entity is
    written. *)
Theorem X4_undo_of_creation_keeps_fields op e s :
  op ≠ UndoCUDOpEnum.update →
  (1 ≤ maxActions s)%Z →
  e < length (DrawingAction.entities (heap s)) →
  let E := DrawingAction.entities (heap s) !!! e in
  let r := length (DrawingAction.records (heap s)) in
  let s' := undoLast None (start [e] op s) in
  last (actions s') = Some r ∧
  statusOf (heap s') r = UndoStateEnum.undone ∧
  DrawingAction.entities (heap s') = <[e := assign E (jsonClone E)]> (DrawingAction.entities (heap s)) ∧
  (jsonClone E = E → DrawingAction.entities (heap s') = DrawingAction.entities (heap s)).
Proof.
  intros Hop Hmax He E r s'.
  set (s1 := start [e] op s).
  assert (Hs1 : s1 = start [e] op s) by done.
  rewrite start_one_stored in Hs1 by done.
  assert (Hheap : heap s1 = DrawingAction.mkHeap (DrawingAction.entities (heap s))
            (DrawingAction.snapshots (heap s) ++ [jsonClone E] ++ [jsonClone E])
            (DrawingAction.records (heap s)
               ++ [DrawingAction.mk e (Some (length (DrawingAction.snapshots (heap s))))
                     (Some (S (length (DrawingAction.snapshots (heap s)))))
                     UndoStateEnum.restored op]))
    by (rewrite Hs1; apply storeAction_heap).
  assert (Hlast : last (actions s1) = Some r)
    by (rewrite Hs1; by apply storeAction_last).
  destruct (undoLast_logged_last s1 r
              (DrawingAction.mk e (Some (length (DrawingAction.snapshots (heap s))))
                     (Some (S (length (DrawingAction.snapshots (heap s)))))
                     UndoStateEnum.restored op)
              (length (DrawingAction.snapshots (heap s)))) as (_ & Hents & Hst);
    try done.
  { rewrite Hheap; simpl. by apply list_lookup_middle. }
  { by rewrite Hheap. }
  fold s' in Hents, Hst. rewrite Hheap in Hents; simpl in Hents.
  rewrite list_lookup_total_middle in Hents by done.
  split; [by unfold s'; rewrite undoLast_actions|].
  split; [done|]. split; [done|].
  intros Hplain. etrans; [exact Hents|]. fold E. rewrite Hplain, assign_self.
  apply list_insert_id. by apply list_lookup_lookup_total_lt.
Qed.

Lemma X4_undo_of_creation_keeps_fields_witness :
  let s := new 3 (hostHeap [shape "a" "x" 0]) in
  DrawingAction.entities (heap (undoLast None (start [0] UndoCUDOpEnum.create s)))
    = [shape "a" "x" 0].
Proof.
  intros s.
  refine (proj2 (proj2 (proj2
    (X4_undo_of_creation_keeps_fields UndoCUDOpEnum.create 0 s _ _ _))) _).
  - discriminate.
  - simpl. lia.
  - simpl. lia.
  - reflexivity.
Defined.

(** X5.  One edit, staged and committed in a service with nothing staged
    and room for a record: the log ends with a new update record, restored,
    whose prior snapshot is the JSON copy of the entity as it was at [start]
    and whose later snapshot is the JSON copy of the entity as it is at
    [store]; the two are different objects.  Nothing stays staged. *)
Theorem X5_commit_records_before_and_after e o s :
  pending s = [] →
  (1 ≤ maxActions s)%Z →
  e < length (DrawingAction.entities (heap s)) →
  let s' := run (editCycle (e, o)) s in
  let r := length (DrawingAction.records (heap s)) in
  ∃ p n,
    last (actions s') = Some r ∧
    DrawingAction.records (heap s') !! r =
      Some (DrawingAction.mk e (Some p) (Some n) UndoStateEnum.restored UndoCUDOpEnum.update) ∧
    p ≠ n ∧
    DrawingAction.snapshots (heap s') !! p = Some (jsonClone (DrawingAction.entities (heap s) !!! e)) ∧
    DrawingAction.snapshots (heap s') !! n = Some (jsonClone o) ∧
    DrawingAction.entities (heap s') !!! e = o ∧
    pending s' = [].
Proof.
  intros Hp Hmax He s' r.
  unfold s'. rewrite editCycle_run by done. simpl.
  exists (length (DrawingAction.snapshots (heap s))),
         (S (length (DrawingAction.snapshots (heap s)))).
  split; [by apply storeAction_last|].
  split; [by apply list_lookup_middle|].
  split; [lia|].
  split; [by apply list_lookup_middle|].
  split.
  { rewrite lookup_app_r by lia.
    replace (S (length (DrawingAction.snapshots (heap s)))
               - length (DrawingAction.snapshots (heap s))) with 1 by lia.
    simpl. by rewrite list_lookup_total_insert_eq. }
  split; [by apply list_lookup_total_insert_eq|done].
Qed.

Lemma X5_commit_records_before_and_after_witness :
  let s := new 3 (hostHeap [shape "a" "x" 0]) in
  last (actions (run (editCycle (0, shape "a" "x" 1)) s)) = Some 0.
Proof.
  intros s.
  destruct (X5_commit_records_before_and_after 0 (shape "a" "x" 1) s)
    as (p & n & H & _); [reflexivity|simpl; lia|simpl; lia|].
  exact H.
Defined.

(** X6.  An edit that is committed and then undone at once: [undoLast ()]
    writes the prior snapshot over the edited entity and touches no other
    entity.  When JSON copies the entity of before the edit faithfully and
    the edit added no field, the entities are again what they were before
    the edit. *)
Theorem X6_commit_then_undo_restores e o s :
  pending s = [] →
  (1 ≤ maxActions s)%Z →
  e < length (DrawingAction.entities (heap s)) →
  let E := DrawingAction.entities (heap s) !!! e in
  let s' := undoLast None (run (editCycle (e, o)) s) in
  DrawingAction.entities (heap s') = <[e := assign o (jsonClone E)]> (DrawingAction.entities (heap s)) ∧
  statusOf (heap s') (length (DrawingAction.records (heap s))) = UndoStateEnum.undone ∧
  (jsonClone E = E → dom (props o) ⊆ dom (props E) →
   DrawingAction.entities (heap s') = DrawingAction.entities (heap s)).
Proof.
  intros Hp Hmax He E s'.
  set (s1 := run (editCycle (e, o)) s).
  assert (Hs1 : s1 = run (editCycle (e, o)) s) by done.
  rewrite editCycle_run in Hs1 by done.
  destruct (undoLast_logged_last s1 (length (DrawingAction.records (heap s)))
              (DrawingAction.mk e (Some (length (DrawingAction.snapshots (heap s))))
                     (Some (S (length (DrawingAction.snapshots (heap s)))))
                     UndoStateEnum.restored UndoCUDOpEnum.update)
              (length (DrawingAction.snapshots (heap s)))) as (_ & Hents & Hst);
    try done.
  { rewrite Hs1; simpl. by apply storeAction_last. }
  { rewrite Hs1; simpl. by apply list_lookup_middle. }
  { rewrite Hs1; simpl. by rewrite length_insert. }
  assert (Hheap : heap s1 =
    DrawingAction.mkHeap (<[e := o]> (DrawingAction.entities (heap s)))
      (DrawingAction.snapshots (heap s)
         ++ [jsonClone E]
         ++ [jsonClone (<[e := o]> (DrawingAction.entities (heap s)) !!! e)])
      (DrawingAction.records (heap s)
         ++ [DrawingAction.mk e (Some (length (DrawingAction.snapshots (heap s))))
               (Some (S (length (DrawingAction.snapshots (heap s)))))
               UndoStateEnum.restored UndoCUDOpEnum.update]))
    by (by rewrite Hs1).
  fold s' in Hents, Hst. rewrite Hheap in Hents; simpl in Hents.
  rewrite list_lookup_total_middle in Hents by done.
  rewrite list_lookup_total_insert_eq, list_insert_insert_eq in Hents by done.
  split; [done|]. split; [done|].
  intros Hplain Hdom. etrans; [exact Hents|]. fold E.
  rewrite Hplain, assign_covered by done.
  apply list_insert_id. by apply list_lookup_lookup_total_lt.
Qed.

Lemma X6_commit_then_undo_restores_witness :
  let s := new 3 (hostHeap [shape "a" "x" 0]) in
  DrawingAction.entities (heap (undoLast None (run (editCycle (0, shape "a" "x" 1)) s)))
    = [shape "a" "x" 0].
Proof.
  intros s.
  refine (proj2 (proj2 (X6_commit_then_undo_restores 0 (shape "a" "x" 1) s _ _ _)) _ _).
  - reflexivity.
  - simpl. lia.
  - simpl. lia.
  - reflexivity.
  - apply (bool_decide_unpack _). vm_compute. exact I.
Defined.

Lemma find_none_2 {A} (f : A → bool) (l : list A) :
  (∀ x, x ∈ l → f x = false) → List.find f l = None.
Proof.
  induction l as [|x l IH]; intros Hf; simpl; [done|].
  rewrite (Hf x) by apply list_elem_of_here.
  apply IH. intros y Hy. apply Hf. by apply list_elem_of_further.
Qed.

Lemma find_first {A} (f : A → bool) (l1 l2 : list A) a :
  (∀ x, x ∈ l1 → f x = false) → f a = true → List.find f (l1 ++ a :: l2) = Some a.
Proof.
  induction l1 as [|x l1 IH]; intros Hf Ha; simpl; [by rewrite Ha|].
  rewrite (Hf x) by apply list_elem_of_here.
  apply IH; [|done]. intros y Hy. apply Hf. by apply list_elem_of_further.
Qed.

(** X7.  [store] given only entities that have no staged record (none
    staged at all, or staged ones with other ids) does what [abort] does:
    the staged records are dropped and nothing else changes, neither the
    log nor any record, snapshot or entity. *)
Theorem X7_store_skips_unstaged es s :
  (∀ e x, e ∈ es → x ∈ pending s →
          idOf (heap s) x ≠ entityId (DrawingAction.entities (heap s) !!! e)) →
  store es s = abort s ∧
  heap (store es s) = heap s ∧
  actions (store es s) = actions s ∧
  pending (store es s) = [].
Proof.
  intros Hno.
  assert (Hfold : foldl store_each s es = s).
  { induction es as [|e es IH] using rev_ind; [done|].
    rewrite foldl_snoc, IH.
    - unfold store_each. rewrite find_none_2; [done|].
      intros x Hx. apply bool_decide_eq_false_2. apply Hno; [|done].
      apply elem_of_app. right. apply list_elem_of_here.
    - intros e' x He' Hx. apply Hno; [|done]. apply elem_of_app. by left. }
  unfold store, abort. by rewrite Hfold.
Qed.

Lemma X7_store_skips_unstaged_witness :
  let s := start [0] UndoCUDOpEnum.update
             (new 3 (hostHeap [shape "a" "x" 0; shape "b" "y" 0])) in
  actions (store [1] s) = [] ∧ pending (store [1] s) = [].
Proof.
  intros s.
  destruct (X7_store_skips_unstaged [1] s) as (_ & _ & Ha & Hp).
  - intros e x He Hx. apply list_elem_of_singleton in He as ->.
    change (pending s) with [0] in Hx. apply list_elem_of_singleton in Hx as ->.
    vm_compute. discriminate.
  - split; [exact Ha|exact Hp].
Defined.

(** X8.  [store] completes, for an entity, the record that was staged
    first for its id: that record gets the JSON copy of the entity as later
    snapshot, becomes restored and goes to the log.  Every other record,
    the ones staged later for the same id among them, is left as it is and
    dropped from the staging with the rest. *)
Theorem X8_store_completes_first_staged e s l1 a l2 rec p :
  pending s = l1 ++ a :: l2 →
  idOf (heap s) a = entityId (DrawingAction.entities (heap s) !!! e) →
  Forall (λ x, idOf (heap s) x ≠ entityId (DrawingAction.entities (heap s) !!! e)) l1 →
  DrawingAction.records (heap s) !! a = Some rec →
  DrawingAction.prevState rec = Some p →
  p < length (DrawingAction.snapshots (heap s)) →
  let s' := store [e] s in
  actions s' = actions (storeAction a s) ∧
  pending s' = [] ∧
  DrawingAction.records (heap s') !! a =
    Some (DrawingAction.mk (DrawingAction.entity rec) (Some p)
            (Some (length (DrawingAction.snapshots (heap s))))
            UndoStateEnum.restored (DrawingAction.cudOp rec)) ∧
  DrawingAction.snapshots (heap s') =
    DrawingAction.snapshots (heap s) ++ [jsonClone (DrawingAction.entities (heap s) !!! e)] ∧
  (∀ x, x ≠ a → DrawingAction.records (heap s') !! x = DrawingAction.records (heap s) !! x) ∧
  DrawingAction.entities (heap s') = DrawingAction.entities (heap s).
Proof.
  intros Hpend Hid Hl1 Ha Hp Hlt s'.
  assert (Hrec : DrawingAction.records (heap s) !!! a = rec)
    by (by apply list_lookup_total_correct).
  assert (Htrue : (DrawingAction.store a e (heap s)).1 = true).
  { apply (store_true _ _ _ p); [by rewrite Hrec|done]. }
  assert (Hs' : s' = with_pending []
                  (storeAction a (with_heap (DrawingAction.store a e (heap s)).2 s))).
  { unfold s', store. cbn [foldl]. unfold store_each.
    rewrite Hpend, find_first.
    - destruct (DrawingAction.store a e (heap s)) as [c h1]. simpl in *. by rewrite Htrue.
    - intros x Hx. apply bool_decide_eq_false_2. by eapply Forall_forall in Hl1.
    - by apply bool_decide_eq_true_2. }
  rewrite Hs'. simpl. rewrite storeAction_heap. simpl.
  split; [|split; [done|split; [|split; [done|split; [|done]]]]].
  - unfold storeAction, checkMax; simpl. by case_bool_decide.
  - rewrite Hrec, Hp. apply list_lookup_insert_eq. by eapply lookup_lt_Some.
  - intros x Hx. by apply list_lookup_insert_ne.
Qed.

Lemma X8_store_completes_first_staged_witness :
  let s := run [Start [0] UndoCUDOpEnum.update; HostEdit 0 (shape "a" "x" 1);
                Start [0] UndoCUDOpEnum.update; HostEdit 0 (shape "a" "x" 2)]
             (new 3 (hostHeap [shape "a" "x" 0])) in
  actions (store [0] s) = [0] ∧
  DrawingAction.records (heap (store [0] s)) !! 0 =
    Some (DrawingAction.mk 0 (Some 0) (Some 2) UndoStateEnum.restored UndoCUDOpEnum.update).
Proof.
  intros s.
  destruct (X8_store_completes_first_staged 0 s [] 0 [1]
              (DrawingAction.mk 0 (Some 0) None UndoStateEnum.pending UndoCUDOpEnum.update) 0)
    as (Ha & _ & Hr & _).
  - reflexivity.
  - reflexivity.
  - constructor.
  - reflexivity.
  - reflexivity.
  - simpl. lia.
  - split; [exact Ha|exact Hr].
Defined.

(** X9.  After [clear] there is nothing to undo, to redo or to commit:
    [undoLast], [redoLast] and [store] return the state they are given,
    whatever their arguments.  [clear] itself writes no entity, record or
    snapshot and keeps the bound and the callbacks. *)
Theorem X9_clear_wipes_history s es ids :
  actions (clear s) = [] ∧
  pending (clear s) = [] ∧
  heap (clear s) = heap s ∧
  maxActions (clear s) = maxActions s ∧
  createRequested (clear s) = createRequested s ∧
  deleteRequested (clear s) = deleteRequested s ∧
  undoLast ids (clear s) = clear s ∧
  redoLast ids (clear s) = clear s ∧
  store es (clear s) = clear s.
Proof.
  do 6 (split; [done|]). split; [|split].
  - rewrite undoLast_last. unfold undoable. by rewrite able_considered.
  - rewrite redoLast_head. unfold redoable. by rewrite able_considered.
  - assert (Hfold : foldl store_each (clear s) es = clear s).
    { induction es as [|e es IH] using rev_ind; [done|]. by rewrite foldl_snoc, IH. }
    unfold store. by rewrite Hfold.
Qed.

Lemma start_each_calls op s e : calls (start_each op s e) = calls s.
Proof.
  unfold start_each. rewrite new_eq. cbv beta iota zeta.
  case_bool_decide; [|done].
  destruct (DrawingAction.store _ _ _). by rewrite storeAction_calls.
Qed.

Lemma store_each_calls s e : calls (store_each s e) = calls s.
Proof.
  unfold store_each. destruct (List.find _ _); [|done].
  destruct (DrawingAction.store _ _ _) as [[] ?]; [|done].
  by rewrite storeAction_calls.
Qed.

Local Ltac no_call := exists []; rewrite List.app_nil_r; split; [done|simpl; lia].
Local Ltac one_call := eexists [_]; split; [reflexivity|simpl; lia].

(** X10.  The host is called by [undoLast] and [redoLast] only, at most
    once per call, and not at all for an update record or while the host
    has set no callback; [start], [store], [abort] and [clear] never call
    it.  Without callbacks the selected record is switched all the same. *)
Theorem X10_host_is_called_by_undo_redo_only s es op ids :
  calls (start es op s) = calls s ∧
  calls (store es s) = calls s ∧
  calls (abort s) = calls s ∧
  calls (clear s) = calls s ∧
  (∃ cs, calls (undoLast ids s) = calls s ++ cs ∧ length cs ≤ 1) ∧
  (∃ cs, calls (redoLast ids s) = calls s ++ cs ∧ length cs ≤ 1) ∧
  (∀ r, last (undoable ids s) = Some r →
        DrawingAction.cudOp (DrawingAction.records (heap s) !!! r) = UndoCUDOpEnum.update →
        calls (undoLast ids s) = calls s) ∧
  (∀ r, head (redoable ids s) = Some r →
        DrawingAction.cudOp (DrawingAction.records (heap s) !!! r) = UndoCUDOpEnum.update →
        calls (redoLast ids s) = calls s) ∧
  (createRequested s = false → deleteRequested s = false →
   calls (undoLast ids s) = calls s ∧
   calls (redoLast ids s) = calls s ∧
   (∀ r, last (undoable ids s) = Some r →
         heap (undoLast ids s) = DrawingAction.undo r (heap s)) ∧
   (∀ r, head (redoable ids s) = Some r →
         heap (redoLast ids s) = DrawingAction.redo r (heap s))).
Proof.
  split; [|split; [|split; [done|split; [done|]]]].
  - unfold start. apply (foldl_inv (λ s', calls s' = calls s)); [|done].
    intros s' e <-. apply start_each_calls.
  - unfold store; simpl. apply (foldl_inv (λ s', calls s' = calls s)); [|done].
    intros s' e <-. apply store_each_calls.
  - split; [|split; [|split; [|split]]].
    + rewrite undoLast_last. destruct (last _); [|no_call].
      simpl. destruct (DrawingAction.cudOp _).
      * no_call.
      * destruct (deleteRequested s); [one_call|no_call].
      * destruct (createRequested s); [one_call|no_call].
    + rewrite redoLast_head. destruct (head _); [|no_call].
      simpl. destruct (DrawingAction.cudOp _).
      * no_call.
      * destruct (createRequested s); [one_call|no_call].
      * destruct (deleteRequested s); [one_call|no_call].
    + intros r Hr Hop. rewrite undoLast_last, Hr; simpl. by rewrite Hop.
    + intros r Hr Hop. rewrite redoLast_head, Hr; simpl. by rewrite Hop.
    + intros Hc Hd. split; [|split; [|split]].
      * rewrite undoLast_last. destruct (last _); [|done]. simpl.
        rewrite Hc, Hd. by destruct (DrawingAction.cudOp _).
      * rewrite redoLast_head. destruct (head _); [|done]. simpl.
        rewrite Hc, Hd. by destruct (DrawingAction.cudOp _).
      * intros r Hr. by apply undoLast_heap.
      * intros r Hr. by apply redoLast_heap.
Qed.

(** X11.  [undoLast] and [redoLast] given a list of ids that is not empty
    write no entity whose id is not in the list and change no record that
    tracks such an entity, whatever the log holds. *)
Theorem X11_selective_calls_touch_selected_only i l s :
  (∀ e, entityId (DrawingAction.entities (heap s) !!! e) ∉ i :: l →
        DrawingAction.entities (heap (undoLast (Some (i :: l)) s)) !!! e
          = DrawingAction.entities (heap s) !!! e ∧
        DrawingAction.entities (heap (redoLast (Some (i :: l)) s)) !!! e
          = DrawingAction.entities (heap s) !!! e) ∧
  (∀ x, idOf (heap s) x ∉ i :: l →
        DrawingAction.records (heap (undoLast (Some (i :: l)) s)) !!! x
          = DrawingAction.records (heap s) !!! x ∧
        DrawingAction.records (heap (redoLast (Some (i :: l)) s)) !!! x
          = DrawingAction.records (heap s) !!! x).
Proof.
  assert (Hsel : ∀ st r, r ∈ able st (Some (i :: l)) s → idOf (heap s) r ∈ i :: l).
  { intros st r Hr. unfold able in Hr. by apply list_elem_of_filter in Hr as [[? _] _]. }
  assert (Hu : ∀ r, last (undoable (Some (i :: l)) s) = Some r → idOf (heap s) r ∈ i :: l).
  { intros r [l' Hl']%last_Some. apply (Hsel UndoStateEnum.restored).
    fold (undoable (Some (i :: l)) s). rewrite Hl'.
    apply elem_of_app. right. apply list_elem_of_here. }
  assert (Hr : ∀ r, head (redoable (Some (i :: l)) s) = Some r → idOf (heap s) r ∈ i :: l).
  { intros r [l' Hl']%head_Some. apply (Hsel UndoStateEnum.undone).
    fold (redoable (Some (i :: l)) s). rewrite Hl'. apply list_elem_of_here. }
  split.
  - intros e He. split.
    + destruct (last (undoable (Some (i :: l)) s)) as [r|] eqn:Hlast.
      * rewrite (undoLast_heap _ _ r) by done. unfold DrawingAction.undo.
        apply switchState_entity_ne. intros ->. apply He. by apply Hu.
      * by rewrite undoLast_last, Hlast.
    + destruct (head (redoable (Some (i :: l)) s)) as [r|] eqn:Hhead.
      * rewrite (redoLast_heap _ _ r) by done. unfold DrawingAction.redo.
        apply switchState_entity_ne. intros ->. apply He. by apply Hr.
      * by rewrite redoLast_head, Hhead.
  - intros x Hx. split.
    + destruct (last (undoable (Some (i :: l)) s)) as [r|] eqn:Hlast.
      * rewrite (undoLast_heap _ _ r) by done. unfold DrawingAction.undo.
        apply switchState_record_ne. intros ->. apply Hx. by apply Hu.
      * by rewrite undoLast_last, Hlast.
    + destruct (head (redoable (Some (i :: l)) s)) as [r|] eqn:Hhead.
      * rewrite (redoLast_heap _ _ r) by done. unfold DrawingAction.redo.
        apply switchState_record_ne. intros ->. apply Hx. by apply Hr.
      * by rewrite redoLast_head, Hhead.
Qed.

Lemma switchState_record st this h x :
  let a := DrawingAction.records h !!! x in
  let a' := DrawingAction.records (DrawingAction.switchState st this h) !!! x in
  DrawingAction.entity a' = DrawingAction.entity a ∧
  DrawingAction.cudOp a' = DrawingAction.cudOp a ∧
  (a' = a ∨
   (x = this ∧ DrawingAction.status a' = st ∧
    DrawingAction.prevState a' = DrawingAction.nextState a ∧
    DrawingAction.nextState a' = DrawingAction.prevState a)).
Proof.
  unfold DrawingAction.switchState; simpl. rewrite list_lookup_total_insert.
  destruct (decide _) as [[-> _]|]; simpl.
  - split; [done|]. split; [done|]. right. done.
  - split; [done|]. split; [done|]. by left.
Qed.

(** X12.  [undoLast] and [redoLast] take no snapshot and make no record or
    entity: the snapshots stay as they are and the stores keep their sizes.
    The log, the staging and the bound stay.  Of each record the tracked
    entity and the kind stay, and its two snapshots are kept: either the
    record is as it was, or it is the one record switched, with the two
    exchanged. *)
Theorem X12_undo_redo_keep_snapshots ids s :
  let keeps (s' : t) :=
    DrawingAction.snapshots (heap s') = DrawingAction.snapshots (heap s) ∧
    length (DrawingAction.records (heap s')) = length (DrawingAction.records (heap s)) ∧
    length (DrawingAction.entities (heap s')) = length (DrawingAction.entities (heap s)) ∧
    actions s' = actions s ∧
    pending s' = pending s ∧
    maxActions s' = maxActions s ∧
    ∀ x, let a := DrawingAction.records (heap s) !!! x in
         let a' := DrawingAction.records (heap s') !!! x in
         DrawingAction.entity a' = DrawingAction.entity a ∧
         DrawingAction.cudOp a' = DrawingAction.cudOp a ∧
         (a' = a ∨
          (DrawingAction.prevState a' = DrawingAction.nextState a ∧
           DrawingAction.nextState a' = DrawingAction.prevState a)) in
  keeps (undoLast ids s) ∧ keeps (redoLast ids s).
Proof.
  intros keeps.
  assert (Hsw : ∀ st r s', heap s' = DrawingAction.switchState st r (heap s) →
            actions s' = actions s → pending s' = pending s →
            maxActions s' = maxActions s → keeps s').
  { intros st r s' Hh Ha Hp Hm. unfold keeps. rewrite Hh.
    split; [apply switchState_snapshots|].
    split; [apply switchState_length_records|].
    split; [apply switchState_length_entities|].
    do 3 (split; [done|]). intros x. cbv zeta.
    pose proof (switchState_record st r (heap s) x) as H. cbv zeta in H.
    destruct H as (He & Hc & [Hsame|(_ & _ & H1 & H2)]); auto. }
  assert (Hid : keeps s).
  { unfold keeps. do 6 (split; [done|]). intros x. cbv zeta. auto. }
  split.
  - destruct (last (undoable ids s)) as [r|] eqn:Hlast.
    + apply (Hsw UndoStateEnum.undone r).
      * by apply undoLast_heap.
      * apply undoLast_actions.
      * apply undoLast_pending.
      * apply undoLast_maxActions.
    + by rewrite undoLast_last, Hlast.
  - destruct (head (redoable ids s)) as [r|] eqn:Hhead.
    + apply (Hsw UndoStateEnum.restored r).
      * by apply redoLast_heap.
      * apply redoLast_actions.
      * apply redoLast_pending.
      * apply redoLast_maxActions.
    + by rewrite redoLast_head, Hhead.
Qed.

Lemma filter_split_length {A} (P Q : A → Prop)
    `{!∀ x, Decision (P x)} `{!∀ x, Decision (Q x)} (l : list A) :
  (∀ x, x ∈ l → (P x ∨ Q x) ∧ ¬ (P x ∧ Q x)) →
  length (filter P l) + length (filter Q l) = length l.
Proof.
  induction l as [|x l IH]; intros Hl; [done|].
  assert (IH' : length (filter P l) + length (filter Q l) = length l).
  { apply IH. intros y Hy. apply Hl. by apply list_elem_of_further. }
  destruct (Hl x (list_elem_of_here _ _)) as [Hor Hnot].
  destruct (decide (P x)) as [HP|HP], (decide (Q x)) as [HQ|HQ]; try tauto.
  - rewrite filter_cons_True, filter_cons_False by done. simpl. lia.
  - rewrite filter_cons_False, filter_cons_True by done. simpl. lia.
Qed.

Lemma able_ids st ids s :
  able st ids s =
  filter (λ x, default [] ids = [] ∨ idOf (heap s) x ∈ default [] ids) (able st None s).
Proof.
  rewrite (able_considered st ids). unfold able. rewrite list_filter_filter.
  apply list_filter_iff. intros x. unfold considered. tauto.
Qed.

(** X13.  In every state the service reaches, each entry of the log is
    either undoable or redoable and never both: the two lists [undoable ()]
    and [redoable ()] are sublists of the log whose lengths add up to the
    length of the log.  With a list of ids, [undoable] and [redoable] are
    sublists of these. *)
Theorem X13_log_is_undoable_plus_redoable (N : Z) h ops :
  let s := run ops (new N h) in
  length (undoable None s) + length (redoable None s) = length (actions s) ∧
  (∀ x, x ∈ actions s → x ∈ undoable None s ∨ x ∈ redoable None s) ∧
  (∀ x, ¬ (x ∈ undoable None s ∧ x ∈ redoable None s)) ∧
  undoable None s `sublist_of` actions s ∧
  redoable None s `sublist_of` actions s ∧
  (∀ ids, undoable ids s `sublist_of` undoable None s ∧
          redoable ids s `sublist_of` redoable None s).
Proof.
  intros s.
  assert (Hinv : log_inv s) by (apply log_inv_run; split; constructor).
  destruct Hinv as [Ha _].
  assert (Hst : ∀ x, x ∈ actions s →
            statusOf (heap s) x = UndoStateEnum.restored ∨
            statusOf (heap s) x = UndoStateEnum.undone).
  { intros x Hx. eapply Forall_forall in Ha as [_ Hne]; [|done].
    destruct (statusOf (heap s) x); [done|by left|by right]. }
  split; [|split; [|split; [|split; [|split]]]].
  - unfold undoable, redoable, able. apply filter_split_length.
    intros x Hx. split; [by apply Hst|]. intros [H1 H2]. congruence.
  - intros x Hx. unfold undoable, redoable, able.
    rewrite !list_elem_of_filter. destruct (Hst x Hx); auto.
  - intros x [H1 H2]. unfold undoable, redoable, able in *.
    apply list_elem_of_filter in H1 as [H1 _], H2 as [H2 _]. congruence.
  - apply sublist_filter.
  - apply sublist_filter.
  - intros ids. unfold undoable, redoable.
    rewrite (able_ids _ ids), (able_ids UndoStateEnum.undone ids).
    split; apply sublist_filter.
Qed.

Lemma undoLast_undoable s r :
  log_inv s →
  last (undoable None s) = Some r →
  undoable None (undoLast None s) = filter (λ x, x ≠ r) (undoable None s).
Proof.
  intros [Ha _] Hlast.
  assert (Hin : r ∈ actions s).
  { apply last_Some in Hlast as [l' Hl'].
    assert (Hr : r ∈ undoable None s)
      by (rewrite Hl'; apply elem_of_app; right; apply list_elem_of_here).
    unfold undoable, able in Hr. by apply list_elem_of_filter in Hr as [_ ?]. }
  assert (Hr : r < length (DrawingAction.records (heap s))).
  { by eapply Forall_forall in Ha as [? _]. }
  unfold undoable, able. rewrite undoLast_actions, (undoLast_heap _ _ r) by done.
  rewrite list_filter_filter. apply list_filter_iff. intros x.
  unfold statusOf, DrawingAction.undo. rewrite switchState_status.
  destruct (decide (r = x ∧ r < length (DrawingAction.records (heap s)))) as [[-> _]|Hne].
  - split; [done|]. intros [? _]. done.
  - split; [|tauto]. intros Hx. split; [|done]. intros ->. apply Hne. done.
Qed.

Lemma redoLast_redoable s r :
  log_inv s →
  head (redoable None s) = Some r →
  redoable None (redoLast None s) = filter (λ x, x ≠ r) (redoable None s).
Proof.
  intros [Ha _] Hhead.
  assert (Hin : r ∈ actions s).
  { apply head_Some in Hhead as [l' Hl'].
    assert (Hr : r ∈ redoable None s) by (rewrite Hl'; apply list_elem_of_here).
    unfold redoable, able in Hr. by apply list_elem_of_filter in Hr as [_ ?]. }
  assert (Hr : r < length (DrawingAction.records (heap s))).
  { by eapply Forall_forall in Ha as [? _]. }
  unfold redoable, able. rewrite redoLast_actions, (redoLast_heap _ _ r) by done.
  rewrite list_filter_filter. apply list_filter_iff. intros x.
  unfold statusOf, DrawingAction.redo. rewrite switchState_status.
  destruct (decide (r = x ∧ r < length (DrawingAction.records (heap s)))) as [[-> _]|Hne].
  - split; [done|]. intros [? _]. done.
  - split; [|tauto]. intros Hx. split; [|done]. intros ->. apply Hne. done.
Qed.

Lemma undoLast_fewer s :
  log_inv s → undoable None s ≠ [] →
  length (undoable None (undoLast None s)) < length (undoable None s).
Proof.
  intros Hinv Hne. destruct (last (undoable None s)) as [r|] eqn:Hlast.
  - rewrite (undoLast_undoable s r) by done.
    apply (length_filter_lt _ _ r); [|by intros ?].
    apply last_Some in Hlast as [l' ->]. apply elem_of_app. right. apply list_elem_of_here.
  - by apply last_None in Hlast.
Qed.

Lemma redoLast_fewer s :
  log_inv s → redoable None s ≠ [] →
  length (redoable None (redoLast None s)) < length (redoable None s).
Proof.
  intros Hinv Hne. destruct (head (redoable None s)) as [r|] eqn:Hhead.
  - rewrite (redoLast_redoable s r) by done.
    apply (length_filter_lt _ _ r); [|by intros ?].
    apply head_Some in Hhead as [l' ->]. apply list_elem_of_here.
  - by apply head_None in Hhead.
Qed.

Lemma undoLast_exhausts k s :
  log_inv s → length (undoable None s) ≤ k →
  undoable None (Nat.iter k (undoLast None) s) = [].
Proof.
  revert s. induction k as [|k IH]; intros s Hinv Hlen.
  - apply nil_length_inv. cbn [Nat.iter nat_rect]. lia.
  - rewrite Nat.iter_succ_r. apply IH.
    + by apply (log_inv_step s (UndoLast None)).
    + destruct (decide (undoable None s = [])) as [Hnil|Hne].
      * rewrite undoLast_last, Hnil. cbn [last]. rewrite Hnil. simpl. lia.
      * pose proof (undoLast_fewer s Hinv Hne). lia.
Qed.

Lemma redoLast_exhausts k s :
  log_inv s → length (redoable None s) ≤ k →
  redoable None (Nat.iter k (redoLast None) s) = [].
Proof.
  revert s. induction k as [|k IH]; intros s Hinv Hlen.
  - apply nil_length_inv. cbn [Nat.iter nat_rect]. lia.
  - rewrite Nat.iter_succ_r. apply IH.
    + by apply (log_inv_step s (RedoLast None)).
    + destruct (decide (redoable None s = [])) as [Hnil|Hne].
      * rewrite redoLast_head, Hnil. cbn [head]. rewrite Hnil. simpl. lia.
      * pose proof (redoLast_fewer s Hinv Hne). lia.
Qed.

(** X14.  Undo and redo come to an end.  In every state the service
    reaches, an [undoLast ()] that finds something to undo leaves fewer
    undoable entries, and a [redoLast ()] that finds something to redo
    leaves fewer redoable entries; after as many [undoLast ()] as the log
    is long nothing is undoable, and after as many [redoLast ()] nothing is
    redoable. *)
Theorem X14_undo_and_redo_run_out (N : Z) h ops :
  let s := run ops (new N h) in
  (undoable None s ≠ [] →
   length (undoable None (undoLast None s)) < length (undoable None s)) ∧
  (redoable None s ≠ [] →
   length (redoable None (redoLast None s)) < length (redoable None s)) ∧
  undoable None (Nat.iter (length (actions s)) (undoLast None) s) = [] ∧
  redoable None (Nat.iter (length (actions s)) (redoLast None) s) = [].
Proof.
  intros s.
  assert (Hinv : log_inv s) by (apply log_inv_run; split; constructor).
  split; [by apply undoLast_fewer|]. split; [by apply redoLast_fewer|]. split.
  - apply undoLast_exhausts; [done|]. apply length_filter.
  - apply redoLast_exhausts; [done|]. apply length_filter.
Qed.

Lemma store_each_found s e a rec p :
  List.find (λ x, bool_decide (idOf (heap s) x
                     = entityId (DrawingAction.entities (heap s) !!! e)))
            (pending s) = Some a →
  DrawingAction.records (heap s) !! a = Some rec →
  DrawingAction.prevState rec = Some p →
  p < length (DrawingAction.snapshots (heap s)) →
  store_each s e =
  storeAction a
    (with_heap
       (DrawingAction.mkHeap (DrawingAction.entities (heap s))
          (DrawingAction.snapshots (heap s)
             ++ [jsonClone (DrawingAction.entities (heap s) !!! e)])
          (<[a := DrawingAction.mk (DrawingAction.entity rec) (Some p)
                    (Some (length (DrawingAction.snapshots (heap s))))
                    UndoStateEnum.restored (DrawingAction.cudOp rec)]>
             (DrawingAction.records (heap s)))) s).
Proof.
  intros Hfind Ha Hp Hlt. unfold store_each. rewrite Hfind.
  unfold DrawingAction.store; simpl.
  rewrite (list_lookup_total_correct _ _ _ Ha), Hp.
  rewrite bool_decide_eq_false_2 by (intros [= ?]; lia). done.
Qed.

Lemma storeAction_room a s (n : nat) :
  maxActions s = Z.of_nat n → length (actions s) < n →
  storeAction a s = with_actions (actions s ++ [a]) s.
Proof.
  intros Hmax Hlen. unfold storeAction, checkMax; simpl.
  rewrite Hmax, length_app; simpl. by rewrite bool_decide_eq_false_2 by lia.
Qed.

Lemma store_twice_run e o s (n : nat) :
  pending s = [] →
  maxActions s = Z.of_nat n →
  length (actions s) + 2 ≤ n →
  run [Start [e] UndoCUDOpEnum.update; HostEdit e o; Store [e; e]] s =
  mk (DrawingAction.mkHeap (<[e := o]> (DrawingAction.entities (heap s)))
        (DrawingAction.snapshots (heap s)
           ++ [jsonClone (DrawingAction.entities (heap s) !!! e);
               jsonClone (<[e := o]> (DrawingAction.entities (heap s)) !!! e);
               jsonClone (<[e := o]> (DrawingAction.entities (heap s)) !!! e)])
        (DrawingAction.records (heap s)
           ++ [DrawingAction.mk e (Some (length (DrawingAction.snapshots (heap s))))
                 (Some (S (S (length (DrawingAction.snapshots (heap s))))))
                 UndoStateEnum.restored UndoCUDOpEnum.update]))
     (actions s ++ [length (DrawingAction.records (heap s));
                    length (DrawingAction.records (heap s))])
     [] (maxActions s) (createRequested s) (deleteRequested s) (calls s).
Proof.
  destruct s as [[ents snaps recs] acts pend mx cr dr cl].
  cbn [heap actions pending maxActions createRequested deleteRequested calls
       DrawingAction.entities DrawingAction.snapshots DrawingAction.records].
  intros -> -> Hlen.
  set (c0 := jsonClone (ents !!! e)). set (c1 := jsonClone (<[e := o]> ents !!! e)).
  set (rec0 := DrawingAction.mk e (Some (length snaps)) None
                 UndoStateEnum.pending UndoCUDOpEnum.update).
  set (rec1 := DrawingAction.mk e (Some (length snaps)) (Some (S (length snaps)))
                 UndoStateEnum.restored UndoCUDOpEnum.update).
  set (s2 := mk (DrawingAction.mkHeap (<[e := o]> ents) (snaps ++ [c0]) (recs ++ [rec0]))
                acts [length recs] (Z.of_nat n) cr dr cl).
  set (s3 := mk (DrawingAction.mkHeap (<[e := o]> ents) (snaps ++ [c0; c1]) (recs ++ [rec1]))
                (acts ++ [length recs]) [length recs] (Z.of_nat n) cr dr cl).
  assert (Hfind : ∀ s' rec, pending s' = [length recs] →
            DrawingAction.records (heap s') = recs ++ [rec] →
            DrawingAction.entity rec = e →
            List.find (λ x, bool_decide (idOf (heap s') x
                               = entityId (DrawingAction.entities (heap s') !!! e)))
                      (pending s') = Some (length recs)).
  { intros s' rec -> Hrecs Hent. simpl. unfold idOf.
    rewrite Hrecs, list_lookup_total_middle, Hent by done.
    by rewrite bool_decide_eq_true_2. }
  assert (H2 : run [Start [e] UndoCUDOpEnum.update; HostEdit e o]
                 (mk (DrawingAction.mkHeap ents snaps recs) acts [] (Z.of_nat n) cr dr cl) = s2).
  { reflexivity. }
  assert (H3 : store_each s2 e = s3).
  { rewrite (store_each_found s2 e (length recs) rec0 (length snaps)).
    - rewrite (storeAction_room _ _ n) by (simpl; lia).
      unfold s3, with_actions, with_heap; simpl.
      rewrite insert_app_r_alt, Nat.sub_diag, length_app, <- app_assoc by done.
      simpl. rewrite Nat.add_1_r. done.
    - by apply (Hfind s2 rec0).
    - simpl. by apply list_lookup_middle.
    - done.
    - simpl. rewrite length_app; simpl. lia. }
  change [Start [e] UndoCUDOpEnum.update; HostEdit e o; Store [e; e]]
    with ([Start [e] UndoCUDOpEnum.update; HostEdit e o] ++ [Store [e; e]]).
  rewrite run_app, H2. unfold run. cbn [foldl step]. unfold store. cbn [foldl].
  rewrite H3.
  rewrite (store_each_found s3 e (length recs) rec1 (length snaps)).
  - rewrite (storeAction_room _ _ n) by (simpl; rewrite ?length_app; simpl; lia).
    unfold with_pending, with_actions, with_heap; simpl.
    rewrite insert_app_r_alt, Nat.sub_diag, length_app, <- !app_assoc by done.
    simpl. do 3 f_equal. f_equal; f_equal; f_equal; lia.
  - by apply (Hfind s3 rec1).
  - simpl. by apply list_lookup_middle.
  - done.
  - simpl. rewrite length_app; simpl. lia.
Qed.

Lemma filter_ext_elem {A} (P Q : A → Prop)
    `{!∀ x, Decision (P x)} `{!∀ x, Decision (Q x)} (l : list A) :
  (∀ x, x ∈ l → (P x ↔ Q x)) → filter P l = filter Q l.
Proof.
  induction l as [|x l IH]; intros Hl; [done|].
  assert (IH' : filter P l = filter Q l).
  { apply IH. intros y Hy. apply Hl. by apply list_elem_of_further. }
  pose proof (Hl x (list_elem_of_here _ _)) as Hx.
  destruct (decide (P x)) as [HP|HP].
  - rewrite !filter_cons_True by tauto. by rewrite IH'.
  - rewrite !filter_cons_False by tauto. done.
Qed.

(** X15.  [store] given the same entity twice completes its staged record
    twice and puts it in the log twice: the log then holds one record at
    two places.  The record keeps the later snapshot of the second pass.
    One [undoLast ()] makes both entries undone. *)
Theorem X15_store_twice_logs_one_record_twice e o s (n : nat) :
  pending s = [] →
  maxActions s = Z.of_nat n →
  length (actions s) + 2 ≤ n →
  Forall (λ x, x < length (DrawingAction.records (heap s))) (actions s) →
  let r := length (DrawingAction.records (heap s)) in
  let s' := run [Start [e] UndoCUDOpEnum.update; HostEdit e o; Store [e; e]] s in
  actions s' = actions s ++ [r; r] ∧
  DrawingAction.records (heap s') !! r =
    Some (DrawingAction.mk e (Some (length (DrawingAction.snapshots (heap s))))
            (Some (S (S (length (DrawingAction.snapshots (heap s))))))
            UndoStateEnum.restored UndoCUDOpEnum.update) ∧
  length (DrawingAction.snapshots (heap s')) = length (DrawingAction.snapshots (heap s)) + 3 ∧
  undoable None s' = undoable None s ++ [r; r] ∧
  undoable None (undoLast None s') = undoable None s ∧
  redoable None (undoLast None s') = redoable None s ++ [r; r].
Proof.
  intros Hp Hmax Hlen Hall r s'.
  assert (Hs' : s' = run [Start [e] UndoCUDOpEnum.update; HostEdit e o; Store [e; e]] s) by done.
  rewrite (store_twice_run e o s n) in Hs' by done.
  assert (Hact : actions s' = actions s ++ [r; r]) by (by rewrite Hs').
  assert (Hrecs : DrawingAction.records (heap s') =
            DrawingAction.records (heap s)
              ++ [DrawingAction.mk e (Some (length (DrawingAction.snapshots (heap s))))
                    (Some (S (S (length (DrawingAction.snapshots (heap s))))))
                    UndoStateEnum.restored UndoCUDOpEnum.update]) by (by rewrite Hs').
  assert (Hold : ∀ x, x ∈ actions s → x ≠ r ∧ statusOf (heap s') x = statusOf (heap s) x).
  { intros x Hx. eapply Forall_forall in Hall; [|done]. split; [unfold r; lia|].
    unfold statusOf. rewrite Hrecs. by rewrite lookup_total_app_l. }
  assert (Hr : statusOf (heap s') r = UndoStateEnum.restored).
  { unfold statusOf. rewrite Hrecs. by rewrite list_lookup_total_middle. }
  assert (Hundoable : undoable None s' = undoable None s ++ [r; r]).
  { unfold undoable, able. rewrite Hact, filter_app. f_equal.
    - apply filter_ext_elem. intros x Hx. by destruct (Hold x Hx) as [_ ->].
    - by rewrite !filter_cons_True, filter_nil by done. }
  assert (Hlast : last (undoable None s') = Some r).
  { rewrite Hundoable. by rewrite (last_app_cons _ [r]). }
  assert (Hrl : r < length (DrawingAction.records (heap s'))).
  { rewrite Hrecs, length_app. simpl. unfold r. lia. }
  assert (Hafter : ∀ x, statusOf (heap (undoLast None s')) x =
            if decide (x = r) then UndoStateEnum.undone else statusOf (heap s') x).
  { intros x. rewrite (undoLast_heap _ _ r) by done.
    unfold statusOf, DrawingAction.undo. rewrite switchState_status.
    destruct (decide (r = x ∧ _)) as [[-> _]|Hne].
    - by rewrite decide_True.
    - rewrite decide_False; [done|]. intros ->. by apply Hne. }
  split; [done|]. split; [by rewrite Hrecs; apply list_lookup_middle|].
  split; [rewrite Hs'; simpl; rewrite length_app; simpl; lia|].
  split; [done|]. split.
  - unfold undoable, able. rewrite undoLast_actions, Hact, filter_app.
    rewrite (filter_ext_elem _ (λ x, statusOf (heap s) x = UndoStateEnum.restored) (actions s)).
    + rewrite !filter_cons_False, filter_nil by (by rewrite Hafter, decide_True).
      by rewrite List.app_nil_r.
    + intros x Hx. destruct (Hold x Hx) as [Hne Hst].
      by rewrite Hafter, decide_False, Hst.
  - unfold redoable, able. rewrite undoLast_actions, Hact, filter_app. f_equal.
    + apply filter_ext_elem. intros x Hx. destruct (Hold x Hx) as [Hne Hst].
      by rewrite Hafter, decide_False, Hst.
    + rewrite !filter_cons_True, filter_nil; [done|..];
        by rewrite Hafter, decide_True.
Qed.

Lemma X15_store_twice_logs_one_record_twice_witness :
  let s := new 5 (hostHeap [shape "a" "x" 0]) in
  let s' := run [Start [0] UndoCUDOpEnum.update; HostEdit 0 (shape "a" "x" 1); Store [0; 0]] s in
  actions s' = [0; 0] ∧ redoable None (undoLast None s') = [0; 0].
Proof.
  intros s s'.
  destruct (X15_store_twice_logs_one_record_twice 0 (shape "a" "x" 1) s 5)
    as (Ha & _ & _ & _ & _ & Hr).
  - reflexivity.
  - reflexivity.
  - simpl. lia.
  - constructor.
  - split; [exact Ha|exact Hr].
Defined.

Lemma filter_all_true {A} (P : A → Prop) `{!∀ x, Decision (P x)} (l : list A) :
  Forall P l → filter P l = l.
Proof.
  induction 1 as [|x l Hx _ IH]; [done|]. by rewrite filter_cons_True, IH.
Qed.

(** What one committed edit leaves, in a service with room for it. *)
Lemma editCycle_props e o s (n : nat) :
  pending s = [] →
  maxActions s = Z.of_nat n →
  length (actions s) < n →
  log_inv s →
  e < length (DrawingAction.entities (heap s)) →
  let s1 := run (editCycle (e, o)) s in
  let r := length (DrawingAction.records (heap s)) in
  pending s1 = [] ∧
  maxActions s1 = Z.of_nat n ∧
  actions s1 = actions s ++ [r] ∧
  log_inv s1 ∧
  DrawingAction.entities (heap s1) = <[e := o]> (DrawingAction.entities (heap s)) ∧
  DrawingAction.snapshots (heap s1) =
    DrawingAction.snapshots (heap s)
      ++ [jsonClone (DrawingAction.entities (heap s) !!! e); jsonClone o] ∧
  DrawingAction.records (heap s1) =
    DrawingAction.records (heap s)
      ++ [DrawingAction.mk e (Some (length (DrawingAction.snapshots (heap s))))
            (Some (S (length (DrawingAction.snapshots (heap s)))))
            UndoStateEnum.restored UndoCUDOpEnum.update] ∧
  undoable None s1 = undoable None s ++ [r] ∧
  redoable None s1 = redoable None s.
Proof.
  intros Hp Hmax Hlen Hinv He s1 r.
  assert (Hlog : log_inv s1) by (by apply log_inv_run).
  assert (Hs1 : s1 = run (editCycle (e, o)) s) by done.
  rewrite editCycle_run in Hs1 by done.
  rewrite (storeAction_room _ _ n) in Hs1 by done.
  rewrite list_lookup_total_insert_eq in Hs1 by done.
  assert (Hrecs : DrawingAction.records (heap s1) =
    DrawingAction.records (heap s)
      ++ [DrawingAction.mk e (Some (length (DrawingAction.snapshots (heap s))))
            (Some (S (length (DrawingAction.snapshots (heap s)))))
            UndoStateEnum.restored UndoCUDOpEnum.update]) by (by rewrite Hs1).
  assert (Hact : actions s1 = actions s ++ [r]) by (by rewrite Hs1).
  assert (Hold : ∀ x, x ∈ actions s → statusOf (heap s1) x = statusOf (heap s) x).
  { intros x Hx. destruct Hinv as [Ha _]. eapply Forall_forall in Ha as [Hx' _]; [|done].
    unfold statusOf. rewrite Hrecs. by rewrite lookup_total_app_l. }
  assert (Hr : statusOf (heap s1) r = UndoStateEnum.restored).
  { unfold statusOf. rewrite Hrecs. by rewrite list_lookup_total_middle. }
  split; [by rewrite Hs1|]. split; [by rewrite Hs1|]. split; [done|]. split; [done|].
  split; [by rewrite Hs1|]. split; [by rewrite Hs1|]. split; [done|]. split.
  - unfold undoable, able. rewrite Hact, filter_app. f_equal.
    + apply filter_ext_elem. intros x Hx. by rewrite Hold.
    + by rewrite filter_cons_True, filter_nil.
  - unfold redoable, able. rewrite Hact, filter_app.
    rewrite filter_cons_False, filter_nil, List.app_nil_r by (by rewrite Hr).
    apply filter_ext_elem. intros x Hx. by rewrite Hold.
Qed.

(** The heap [undoLast ()] leaves when it selects the record [r]. *)
Lemma undoLast_selected s r a p :
  last (undoable None s) = Some r →
  DrawingAction.records (heap s) !! r = Some a →
  DrawingAction.prevState a = Some p →
  heap (undoLast None s) =
  DrawingAction.mkHeap
    (<[DrawingAction.entity a :=
         assign (DrawingAction.entities (heap s) !!! DrawingAction.entity a)
                (DrawingAction.snapshots (heap s) !!! p)]>
       (DrawingAction.entities (heap s)))
    (DrawingAction.snapshots (heap s))
    (<[r := DrawingAction.mk (DrawingAction.entity a) (DrawingAction.nextState a)
              (Some p) UndoStateEnum.undone (DrawingAction.cudOp a)]>
       (DrawingAction.records (heap s))).
Proof.
  intros Hlast Ha Hp. rewrite (undoLast_heap _ _ r) by done.
  unfold DrawingAction.undo, DrawingAction.switchState.
  by rewrite (list_lookup_total_correct _ _ _ Ha), Hp.
Qed.

Lemma undo_all_run (n : nat) cs : ∀ s,
  pending s = [] →
  maxActions s = Z.of_nat n →
  length (actions s) + length cs ≤ n →
  log_inv s →
  tidy (DrawingAction.entities (heap s)) cs →
  let S' := run (editCycles cs) s in
  let U := Nat.iter (length cs) (undoLast None) S' in
  log_inv U ∧
  actions U = actions S' ∧
  DrawingAction.entities (heap U) = DrawingAction.entities (heap s) ∧
  undoable None U = undoable None s ∧
  (∀ x a, DrawingAction.records (heap s) !! x = Some a →
          DrawingAction.records (heap U) !! x = Some a) ∧
  (∀ p o, DrawingAction.snapshots (heap s) !! p = Some o →
          DrawingAction.snapshots (heap U) !! p = Some o).
Proof.
  induction cs as [|[e o] cs IH]; intros s Hp Hmax Hlen Hinv Htidy.
  { simpl. done. }
  destruct Htidy as (He & HplainE & Hplaino & Hdom & Htidy). simpl in He, HplainE, Hplaino, Hdom, Htidy.
  simpl in Hlen.
  destruct (editCycle_props e o s n) as (Hp1 & Hmax1 & Hact1 & Hinv1 & Hents1 & Hsnap1 & Hrecs1 & Hund1 & _);
    [done|done|lia|done|done|].
  set (s1 := run (editCycle (e, o)) s) in *.
  set (r := length (DrawingAction.records (heap s))) in *.
  intros S' U.
  assert (HS' : S' = run (editCycles cs) s1).
  { unfold S', editCycles. cbn [flat_map]. by rewrite run_app. }
  specialize (IH s1 Hp1 Hmax1).
  destruct IH as (HinvU & HactU & HentsU & HundU & HrecU & HsnapU).
  { rewrite Hact1, length_app. simpl. lia. }
  { done. }
  { by rewrite Hents1. }
  rewrite <- HS' in HinvU, HactU, HentsU, HundU, HrecU, HsnapU.
  set (U1 := Nat.iter (length cs) (undoLast None) S') in *.
  assert (HU : U = undoLast None U1) by done.
  assert (Hlast : last (undoable None U1) = Some r).
  { rewrite HundU, Hund1. apply last_snoc. }
  assert (Hrec : DrawingAction.records (heap U1) !! r =
            Some (DrawingAction.mk e (Some (length (DrawingAction.snapshots (heap s))))
                    (Some (S (length (DrawingAction.snapshots (heap s)))))
                    UndoStateEnum.restored UndoCUDOpEnum.update)).
  { apply HrecU. rewrite Hrecs1. by apply list_lookup_middle. }
  assert (Hsnap : DrawingAction.snapshots (heap U1) !! length (DrawingAction.snapshots (heap s))
                    = Some (DrawingAction.entities (heap s) !!! e)).
  { apply HsnapU. rewrite Hsnap1, HplainE. by apply list_lookup_middle. }
  assert (Hheap := undoLast_selected U1 r _ _ Hlast Hrec eq_refl).
  rewrite <- HU in Hheap. simpl in Hheap.
  rewrite HentsU, Hents1 in Hheap.
  rewrite (list_lookup_total_correct _ _ _ Hsnap) in Hheap.
  rewrite list_lookup_total_insert_eq, list_insert_insert_eq in Hheap by done.
  rewrite assign_covered in Hheap by (by rewrite Hdom).
  rewrite list_insert_id in Hheap by (by apply list_lookup_lookup_total_lt).
  split; [rewrite HU; by apply (log_inv_step U1 (UndoLast None))|].
  split; [by rewrite HU, undoLast_actions|].
  split; [by rewrite Hheap|].
  split.
  { rewrite HU, (undoLast_undoable U1 r) by done. rewrite HundU, Hund1, filter_app.
    rewrite filter_cons_False, filter_nil, List.app_nil_r by (by intros ?).
    apply filter_all_true. apply Forall_forall. intros x Hx.
    unfold undoable, able in Hx. apply list_elem_of_filter in Hx as [_ Hx].
    destruct Hinv as [Ha _]. eapply Forall_forall in Ha as [Hx' _]; [|done].
    unfold r. lia. }
  split.
  - intros x a Hx. rewrite Hheap; simpl.
    rewrite list_lookup_insert_ne.
    + apply HrecU. rewrite Hrecs1. by apply lookup_app_l_Some.
    + apply lookup_lt_Some in Hx. unfold r. lia.
  - intros p o' Hpo. rewrite Hheap; simpl. apply HsnapU. rewrite Hsnap1.
    by apply lookup_app_l_Some.
Qed.

Lemma editCycles_room (n : nat) cs : ∀ s,
  pending s = [] →
  maxActions s = Z.of_nat n →
  length (actions s) + length cs ≤ n →
  actions (run (editCycles cs) s) =
    actions s ++ seq (length (DrawingAction.records (heap s))) (length cs).
Proof.
  induction cs as [|[e o] cs IH]; intros s Hp Hmax Hlen.
  { simpl. by rewrite List.app_nil_r. }
  simpl in Hlen. cbn [length seq].
  unfold editCycles. cbn [flat_map]. rewrite run_app. fold (editCycles cs).
  rewrite IH.
  - rewrite editCycle_run by done. simpl.
    rewrite (storeAction_room _ _ n) by (done || lia). simpl.
    rewrite length_app, <- app_assoc. simpl. by rewrite Nat.add_1_r.
  - by rewrite editCycle_run.
  - by rewrite editCycle_run.
  - rewrite editCycle_run by done. simpl.
    rewrite (storeAction_room _ _ n) by (done || lia). simpl.
    rewrite length_app. simpl. lia.
Qed.

(** An undo and the redo right after it, on the same record, give the state
    back. *)
Lemma undo_then_redo_state s r a p n l1 l2 :
  last (undoable None s) = Some r →
  actions s = l1 ++ r :: l2 →
  Forall (λ x, statusOf (heap s) x ≠ UndoStateEnum.undone) l1 →
  DrawingAction.records (heap s) !! r = Some a →
  DrawingAction.status a = UndoStateEnum.restored →
  DrawingAction.cudOp a = UndoCUDOpEnum.update →
  DrawingAction.prevState a = Some p →
  DrawingAction.nextState a = Some n →
  DrawingAction.entities (heap s) !!! DrawingAction.entity a
    = DrawingAction.snapshots (heap s) !!! n →
  dom (props (DrawingAction.snapshots (heap s) !!! p))
    ⊆ dom (props (DrawingAction.snapshots (heap s) !!! n)) →
  redoLast None (undoLast None s) = s.
Proof.
  intros Hlast Hact Hl1 Ha Hst Hop Hp Hn Hent Hdom.
  assert (Hundo : undoLast None s = with_heap (DrawingAction.undo r (heap s)) s).
  { rewrite undoLast_last, Hlast; simpl.
    by rewrite (list_lookup_total_correct _ _ _ Ha), Hop. }
  assert (Hr : r < length (DrawingAction.records (heap s))) by (by eapply lookup_lt_Some).
  assert (Hhead : head (redoable None (undoLast None s)) = Some r).
  { rewrite Hundo. unfold redoable, able; simpl. rewrite Hact.
    apply head_filter_first.
    - eapply Forall_impl; [exact Hl1|]. intros x Hx Hu.
      destruct (decide (x = r)) as [|Hne]; [done|]. exfalso. apply Hx.
      unfold statusOf in *. unfold DrawingAction.undo in Hu.
      by rewrite switchState_record_ne in Hu.
    - unfold statusOf, DrawingAction.undo. rewrite switchState_status.
      by rewrite decide_True. }
  rewrite redoLast_head, Hhead. cbv zeta. rewrite Hundo. cbn [heap with_heap].
  rewrite undo_cudOp, (list_lookup_total_correct _ _ _ Ha), Hop.
  cbn [heap with_heap].
  rewrite (undo_redo_heap r (heap s) a p n) by done.
  by destruct s.
Qed.

Lemma redo_all_run (n : nat) cs : ∀ s,
  pending s = [] →
  maxActions s = Z.of_nat n →
  length (actions s) + length cs ≤ n →
  log_inv s →
  redoable None s = [] →
  tidy (DrawingAction.entities (heap s)) cs →
  let S' := run (editCycles cs) s in
  Nat.iter (length cs) (redoLast None) (Nat.iter (length cs) (undoLast None) S') = S'.
Proof.
  induction cs as [|[e o] cs IH]; intros s Hp Hmax Hlen Hinv Hredo Htidy; [done|].
  pose proof Htidy as (He & HplainE & Hplaino & Hdom & Htidy').
  simpl in He, HplainE, Hplaino, Hdom, Htidy'. simpl in Hlen.
  destruct (editCycle_props e o s n)
    as (Hp1 & Hmax1 & Hact1 & Hinv1 & Hents1 & Hsnap1 & Hrecs1 & Hund1 & Hred1);
    [done|done|lia|done|done|].
  set (s1 := run (editCycle (e, o)) s) in *.
  set (r := length (DrawingAction.records (heap s))) in *.
  intros S'.
  assert (HS' : S' = run (editCycles cs) s1).
  { unfold S', editCycles. cbn [flat_map]. by rewrite run_app. }
  assert (Hroom1 : length (actions s1) + length cs ≤ n).
  { rewrite Hact1, length_app. simpl. lia. }
  assert (Htidy1 : tidy (DrawingAction.entities (heap s1)) cs) by (by rewrite Hents1).
  destruct (undo_all_run n cs s1 Hp1 Hmax1 Hroom1 Hinv1 Htidy1)
    as (_ & HactU & HentsU & HundU & HrecU & HsnapU).
  specialize (IH s1 Hp1 Hmax1 Hroom1 Hinv1).
  rewrite <- HS' in IH, HactU, HentsU, HundU, HrecU, HsnapU.
  set (U1 := Nat.iter (length cs) (undoLast None) S') in *.
  change (Nat.iter (length ((e, o) :: cs)) (undoLast None) S') with (undoLast None U1).
  change (length ((e, o) :: cs)) with (S (length cs)).
  rewrite Nat.iter_succ_r.
  rewrite (undo_then_redo_state U1 r
             (DrawingAction.mk e (Some (length (DrawingAction.snapshots (heap s))))
                (Some (S (length (DrawingAction.snapshots (heap s)))))
                UndoStateEnum.restored UndoCUDOpEnum.update)
             (length (DrawingAction.snapshots (heap s)))
             (S (length (DrawingAction.snapshots (heap s))))
             (actions s)
             (seq (length (DrawingAction.records (heap s1))) (length cs))).
  - apply IH; [by rewrite Hred1|done].
  - rewrite HundU, Hund1. apply last_snoc.
  - rewrite HactU, HS', (editCycles_room n) by done. by rewrite Hact1, <- app_assoc.
  - apply Forall_forall. intros x Hx Hu.
    destruct Hinv as [Ha _]. eapply Forall_forall in Ha as [Hx' _]; [|done].
    assert (Hsame : statusOf (heap U1) x = statusOf (heap s) x).
    { unfold statusOf. apply list_lookup_lookup_total_lt in Hx'.
      erewrite (list_lookup_total_correct (DrawingAction.records (heap U1))); [done|].
      apply HrecU. rewrite Hrecs1. by apply lookup_app_l_Some. }
    rewrite Hsame in Hu.
    assert (Hin : x ∈ redoable None s).
    { unfold redoable, able. by apply list_elem_of_filter. }
    rewrite Hredo in Hin. by apply not_elem_of_nil in Hin.
  - apply HrecU. rewrite Hrecs1. by apply list_lookup_middle.
  - done.
  - done.
  - done.
  - done.
  - simpl. rewrite HentsU, Hents1, list_lookup_total_insert_eq by done.
    symmetry. apply list_lookup_total_correct, HsnapU. rewrite Hsnap1, Hplaino.
    rewrite lookup_app_r by lia.
    by replace (S (length (DrawingAction.snapshots (heap s)))
                  - length (DrawingAction.snapshots (heap s))) with 1 by lia.
  - erewrite (list_lookup_total_correct (DrawingAction.snapshots (heap U1)) (length _));
      [|apply HsnapU; rewrite Hsnap1; by apply list_lookup_middle].
    erewrite (list_lookup_total_correct (DrawingAction.snapshots (heap U1)) (S _));
      [|apply HsnapU; rewrite Hsnap1, lookup_app_r by lia;
        by replace (S (length (DrawingAction.snapshots (heap s)))
                      - length (DrawingAction.snapshots (heap s))) with 1 by lia].
    rewrite HplainE, Hplaino, Hdom. done.
Qed.

Lemma run_maxActions ops s : maxActions (run ops s) = maxActions s.
Proof.
  unfold run. apply (foldl_inv (λ s', maxActions s' = maxActions s)); [|done].
  intros s' o <-. apply step_maxActions.
Qed.

(** X16.  The film played backwards.  Take a state the service reaches with
    nothing staged, then a series of edits, each staged and committed, for
    which the log has room and which keep every edited entity a plain JSON
    record with the same fields.  As many [undoLast ()] as there were edits
    give back the entities as they were before the series, and what was
    undoable before it is what is undoable again. *)
Theorem X16_undo_all_restores_entities (n : nat) h ops cs :
  let s := run ops (new (Z.of_nat n) h) in
  pending s = [] →
  length (actions s) + length cs ≤ n →
  tidy (DrawingAction.entities (heap s)) cs →
  let U := Nat.iter (length cs) (undoLast None) (run (editCycles cs) s) in
  DrawingAction.entities (heap U) = DrawingAction.entities (heap s) ∧
  undoable None U = undoable None s ∧
  actions U = actions s ++ seq (length (DrawingAction.records (heap s))) (length cs).
Proof.
  intros s Hp Hlen Htidy U.
  assert (Hinv : log_inv s) by (apply log_inv_run; split; constructor).
  assert (Hmax : maxActions s = Z.of_nat n) by (unfold s; by rewrite run_maxActions).
  destruct (undo_all_run n cs s Hp Hmax Hlen Hinv Htidy) as (_ & Ha & He & Hu & _).
  split; [done|]. split; [done|].
  fold U in Ha. rewrite Ha. by apply (editCycles_room n).
Qed.

Lemma X16_undo_all_restores_entities_witness :
  let h := hostHeap [shape "a" "x" 0; shape "b" "y" 0] in
  let cs := [(0, shape "a" "x" 1); (1, shape "b" "y" 1); (0, shape "a" "x" 2)] in
  DrawingAction.entities
    (heap (Nat.iter 3 (undoLast None) (run (editCycles cs) (new 5 h))))
  = [shape "a" "x" 0; shape "b" "y" 0].
Proof.
  intros h cs.
  refine (proj1 (X16_undo_all_restores_entities 5 h [] cs _ _ _)).
  - reflexivity.
  - simpl. lia.
  - repeat split; try reflexivity; simpl; lia.
Defined.

(** X17.  The film played backwards and forwards again.  Under the
    conditions of X16, when besides nothing of the log is undone before
    the series of edits, as many [undoLast ()] as there were edits followed
    by as many [redoLast ()] give back the very state that followed the
    edits. *)
Theorem X17_undo_all_then_redo_all (n : nat) h ops cs :
  let s := run ops (new (Z.of_nat n) h) in
  pending s = [] →
  length (actions s) + length cs ≤ n →
  redoable None s = [] →
  tidy (DrawingAction.entities (heap s)) cs →
  Nat.iter (length cs) (redoLast None)
    (Nat.iter (length cs) (undoLast None) (run (editCycles cs) s))
  = run (editCycles cs) s.
Proof.
  intros s Hp Hlen Hredo Htidy.
  assert (Hinv : log_inv s) by (apply log_inv_run; split; constructor).
  assert (Hmax : maxActions s = Z.of_nat n) by (unfold s; by rewrite run_maxActions).
  by apply (redo_all_run n).
Qed.

Lemma X17_undo_all_then_redo_all_witness :
  let h := hostHeap [shape "a" "x" 0; shape "b" "y" 0] in
  let cs := [(0, shape "a" "x" 1); (1, shape "b" "y" 1); (0, shape "a" "x" 2)] in
  Nat.iter 3 (redoLast None) (Nat.iter 3 (undoLast None) (run (editCycles cs) (new 5 h)))
  = run (editCycles cs) (new 5 h).
Proof.
  intros h cs.
  refine (X17_undo_all_then_redo_all 5 h [] cs _ _ _ _).
  - reflexivity.
  - simpl. lia.
  - reflexivity.
  - repeat split; try reflexivity; simpl; lia.
Defined.

End further.
